(** * Chat client state: delivery status, typing, presence, conversation list

    A shallow embedding of the state-merging logic of the chat front end
    (the [EnhancedChat] and [MessageBubble] components in their two
    variants, [SocketProvider], and the connection registry, presence
    tracker and recipient resolution of the server they talk to), with
    the properties the specification states about them.

    Conventions of the embedding:
    - an optional property or an [undefined] value is [None];
    - a React state update [setX (prev => e)] is a function from the
      previous state to the next one;
    - what a handler sends out (socket emits, API posts) is returned as a
      list next to the new state;
    - the wall clock and the timer table of the browser are explicit. *)

From stdpp Require Import base strings list gmap pretty.
From Stdlib Require Import ZArith Lia Ascii.

Local Open Scope string_scope.
Local Open Scope list_scope.
Local Open Scope nat_scope.
Local Open Scope stdpp_scope.

(** ** JavaScript values *)

Module JS.

(** [!!s] for a string that may be undefined: the empty string and
    [undefined] are falsy. *)
Definition truthy_string (s : option string) : bool :=
  match s with
  | Some s => negb (bool_decide (s = ""))
  | None => false
  end.

(** [!!b] for a boolean property that may be missing. *)
Definition truthy_bool (b : option bool) : bool :=
  match b with
  | Some true => true
  | _ => false
  end.

(** [a === b] on values of one type. *)
Definition strict_eq {A} `{EqDecision A} (a b : A) : bool :=
  bool_decide (a = b).

(** The property key an expression is coerced to in [obj[k]]:
    [undefined] becomes the key ["undefined"]. *)
Definition property_key (k : option string) : string :=
  default "undefined" k.

(** A plain object with string keys, in property order.  The keys used
    here are user identifiers, never array indices, so property order is
    insertion order. *)
Definition object (V : Type) : Type := list (string * V).

(** [obj[k]] *)
Fixpoint get {V} (k : string) (o : object V) : option V :=
  match o with
  | [] => None
  | (k', v) :: o' => if bool_decide (k' = k) then Some v else get k o'
  end.

(** [obj[k] = v]: an existing property keeps its place, a new one goes
    last. *)
Fixpoint assign {V} (k : string) (v : V) (o : object V) : object V :=
  match o with
  | [] => [(k, v)]
  | (k', v') :: o' =>
      if bool_decide (k' = k) then (k, v) :: o' else (k', v') :: assign k v o'
  end.

(** [Object.values(obj)] *)
Definition values {V} (o : object V) : list V := o.*2.

(** [arr.find(p)] *)
Definition find {V} (p : V → bool) (l : list V) : option V :=
  List.find p l.

(** [arr.some(p)] *)
Definition some {V} (p : V → bool) (l : list V) : bool :=
  existsb p l.

End JS.

(** ** Messages *)

Module Chat.

(** One entry of [delivery_status].  The declared type is
    [{ delivered: boolean; read: boolean; read_at?: string }]; the
    handlers build entries through [as any], so every property can be
    missing and [delivered_at] can be present. *)
Record Status : Type := mkStatus {
  delivered : option bool;
  read : option bool;
  read_at : option string;
  delivered_at : option string;
}.

(** [interface Message].  The attachment, reaction and quoted-message
    properties are carried along untouched by every handler modelled
    here and are left out. *)
Record Message : Type := mkMessage {
  id : string;
  sender_id : string;
  receiver_id : option string;
  group_id : option string;
  group_chat_id : option string;
  content : string;
  reply_to : option string;
  edited : bool;
  edited_at : option string;
  deleted : bool;
  delivery_status : option (JS.object Status);
  created_at : string;
  sender_name : option string;
}.

#[global] Instance Status_eq_dec : EqDecision Status.
Proof. solve_decision. Defined.

#[global] Instance Message_eq_dec : EqDecision Message.
Proof. solve_decision. Defined.

(** [{ ...m, delivery_status: ds }] *)
Definition with_delivery_status (m : Message) (ds : JS.object Status) : Message :=
  {| id := id m; sender_id := sender_id m; receiver_id := receiver_id m;
     group_id := group_id m; group_chat_id := group_chat_id m;
     content := content m; reply_to := reply_to m; edited := edited m;
     edited_at := edited_at m; deleted := deleted m;
     delivery_status := Some ds;
     created_at := created_at m; sender_name := sender_name m |}.

(** [{ ...m, deleted: true }] *)
Definition with_deleted (m : Message) : Message :=
  {| id := id m; sender_id := sender_id m; receiver_id := receiver_id m;
     group_id := group_id m; group_chat_id := group_chat_id m;
     content := content m; reply_to := reply_to m; edited := edited m;
     edited_at := edited_at m; deleted := true;
     delivery_status := delivery_status m;
     created_at := created_at m; sender_name := sender_name m |}.

(** The props and context values the handlers of [EnhancedChat] close
    over: [chatId], [isGroup], [receiverId] and [user?.id]. *)
Record Props : Type := mkProps {
  chatId : string;
  isGroup : bool;
  receiverId : option string;
  userId : option string;
}.

(** What a handler sends out. *)
Inductive Outbound : Type :=
| PostMarkAllRead (receiver_id group_chat_id : option string)
| PostGroupMarkRead (chatId : string)
| PostMarkDelivered (messageId : string)
| EmitTyping (chat_id receiver_id : option string) (is_group : bool)
| EmitGroupTyping (groupId : string) (userId : option string).

(** The status recorded for a (message, recipient) key of a
    conversation list. *)
Definition status_of (messageId recipientId : string) (l : list Message)
  : option Status :=
  m ← List.find (λ m, bool_decide (id m = messageId)) l;
  ds ← delivery_status m;
  JS.get recipientId ds.

End Chat.

(** ** The timer table of the browser *)

Module Timers.

Record timer (A : Type) : Type := mkTimer {
  handle : nat;
  due : Z;
  callback : A;
}.
Arguments mkTimer {A} _ _ _.
Arguments handle {A} _.
Arguments due {A} _.
Arguments callback {A} _.

(** Pending timers in the order they were set; handles count up from 1,
    so a handle is always truthy. *)
Record table (A : Type) : Type := mkTable {
  pending : list (timer A);
  next_handle : nat;
}.
Arguments mkTable {A} _ _.
Arguments pending {A} _.
Arguments next_handle {A} _.

Definition empty {A} : table A := mkTable [] 1.

(** [setTimeout(cb, delay)] called at time [now]. *)
Definition setTimeout {A} (cb : A) (now delay : Z) (t : table A) : nat * table A :=
  (next_handle t,
   mkTable (pending t ++ [mkTimer (next_handle t) (now + delay) cb])%list
           (S (next_handle t))).

(** [clearTimeout(h)]; clearing [undefined], or a handle that already
    fired or was cleared, does nothing. *)
Definition clearTimeout {A} (h : option nat) (t : table A) : table A :=
  match h with
  | Some h => mkTable (filter (λ x, handle x ≠ h) (pending t)) (next_handle t)
  | None => t
  end.

(** The timers that have come due at [now], and the table without them. *)
Definition is_due {A} (now : Z) (x : timer A) : Prop := (due x ≤ now)%Z.

#[global] Instance is_due_dec {A} now (x : timer A) : Decision (is_due now x).
Proof. unfold is_due. apply _. Defined.

Definition take_due {A} (now : Z) (t : table A) : list (timer A) * table A :=
  (filter (is_due now) (pending t),
   mkTable (filter (λ x, ¬ is_due now x) (pending t)) (next_handle t)).

(** The pending timer behind a handle. *)
Definition lookup {A} (h : nat) (t : table A) : option (timer A) :=
  List.find (λ x, bool_decide (handle x = h)) (pending t).

End Timers.

(** ** Event payloads *)

Module messages_read.
Record data : Type := mk {
  receiver_id : option string;
  timestamp : option string;
}.
End messages_read.

Module message_delivered.
Record data : Type := mk {
  messageId : string;
  receiver_id : option string;
  timestamp : option string;
}.
End message_delivered.

Module message_deleted.
Record data : Type := mk {
  message_id : string;
}.
End message_deleted.

Module group_typing.
Record data : Type := mk {
  userId : string;
  groupId : string;
}.
End group_typing.

Module TypingEvent.
Record t : Type := mk {
  sender_id : string;
  receiver_id : string;
  group_chat_id : option string;
  is_group : bool;
}.
End TypingEvent.

Module message_edited.
Record data : Type := mk {
  id : string;
  content : string;
  edited : bool;
  edited_at : string;
}.
End message_edited.

(** ** What [MessageBubble] renders *)

Module Bubble.

(** The tick next to an own message: [✓✓], [✓], or the placeholder
    shown while neither holds. *)
Inductive Tick : Type := DoubleTick | SingleTick | NoTick.

Inductive View : Type :=
| DeletedPlaceholder              (* "This message was deleted" *)
| Body (content : string) (tick : option Tick).

End Bubble.

(** ** The typing indicator and the composer, as state *)

Module Indicator.

(** The only callback ever scheduled on the indicator:
    [() => setIsTyping(false)]. *)
Inductive Callback : Type := HideTyping.

(** [isTyping], the variable or ref that holds the last timer handle,
    and the timers set by the typing handlers. *)
Record t : Type := mk {
  isTyping : bool;
  typingTimeout : option nat;
  timers : Timers.table Callback;
}.

Definition initial : t := mk false None Timers.empty.

Definition run_callback (cb : Callback) (st : t) : t :=
  match cb with
  | HideTyping => mk false (typingTimeout st) (timers st)
  end.

(** The event loop runs every timer that has come due at [now]. *)
Definition run_due (now : Z) (st : t) : t :=
  let '(fired, tb) := Timers.take_due now (timers st) in
  foldl (λ s x, run_callback (Timers.callback x) s)
        (mk (isTyping st) (typingTimeout st) tb) fired.

(** Whether the typing bubble is on screen at [now]. *)
Definition shown (now : Z) (st : t) : bool := isTyping (run_due now st).

(** Signals arrive at their times; timers due by then have run first. *)
Definition deliver {E} (handle : E → Z → t → t) (st : t) (ev : Z * E) : t :=
  handle ev.2 ev.1 (run_due ev.1 st).

Definition run {E} (handle : E → Z → t → t) (evs : list (Z * E)) : t :=
  foldl (deliver handle) initial evs.

(** The invariant of a handler that clears before it sets: a pending
    timer is always the one whose handle the handler holds. *)
Definition armed_only (st : t) : Prop :=
  Forall (λ x, typingTimeout st = Some (Timers.handle x))
         (Timers.pending (timers st)).

End Indicator.

Module Composer.

(** What the deferred emit closes over: [socket && connected] and
    [newMessage] of the render that created the [onChange] handler. *)
Record Deferred : Type := mkDeferred {
  captured_connected : bool;
  captured_newMessage : string;
}.

(** [newMessage], [lastTypingEmitRef.current],
    [emitTypingTimeoutRef.current] and the timers set by [onChange]. *)
Record t : Type := mk {
  newMessage : string;
  lastTypingEmitRef : Z;
  emitTypingTimeoutRef : option nat;
  timers : Timers.table Deferred;
}.

Definition initial : t := mk "" 0 None Timers.empty.

(** What happens to the composer: the input changes to [value], the
    browser runs the timer with handle [h], or a send completes. *)
Inductive Input : Type :=
| Change (value : string)
| Fire (h : nat)
| Sent.

(** Successive emits are at least [gap] apart. *)
Fixpoint spaced (gap : Z) (ts : list Z) : bool :=
  match ts with
  | [] => true
  | t1 :: rest =>
      match rest with
      | [] => true
      | t2 :: _ => bool_decide (gap ≤ t2 - t1)%Z && spaced gap rest
      end
  end.

(** The invariant of the debounced composer between sends, over the
    times [sent_at] of the emits so far: none is later than
    [lastTypingEmitRef], they are a second apart, and a pending emit is
    the one the ref holds, due a second after the last emit. *)
Definition paced (st : t) (sent_at : list Z) : Prop :=
  Forall (λ t, (t ≤ lastTypingEmitRef st)%Z) sent_at
  ∧ spaced 1000 sent_at = true
  ∧ Forall (λ x, emitTypingTimeoutRef st = Some (Timers.handle x)
                 ∧ Timers.due x = (lastTypingEmitRef st + 1000)%Z)
           (Timers.pending (timers st)).

End Composer.

(** ** [MessageBubble] and [EnhancedChat], socket variant
    (src/unnamed/part_013, third component file) *)

Module Part013.
Import Chat.

(** *** MessageBubble *)

(** [const deliveryStatus = isOwn && message.delivery_status ? ... ] *)
Definition deliveryStatus (message : Message) (isOwn : bool) : option Status :=
  if isOwn then
    match delivery_status message with
    | Some ds =>
        match (if JS.truthy_string (receiver_id message)
               then JS.get (JS.property_key (receiver_id message)) ds
               else None) with
        | Some st => Some st
        | None =>
            if JS.truthy_string (group_chat_id message)
            then JS.find (λ status, JS.truthy_bool (read status)) (JS.values ds)
            else None
        end
    | None => None
    end
  else None.

(** [deliveryStatus && typeof deliveryStatus === 'object' ?
     deliveryStatus.read : false] *)
Definition isRead (message : Message) (isOwn : bool) : option bool :=
  match deliveryStatus message isOwn with
  | Some st => read st
  | None => Some false
  end.

Definition isDelivered (message : Message) (isOwn : bool) : option bool :=
  match deliveryStatus message isOwn with
  | Some st => delivered st
  | None => Some false
  end.

(** [isRead ? '✓✓' : isDelivered ? '✓' : '○'] *)
Definition tick (message : Message) (isOwn : bool) : Bubble.Tick :=
  if JS.truthy_bool (isRead message isOwn) then Bubble.DoubleTick
  else if JS.truthy_bool (isDelivered message isOwn) then Bubble.SingleTick
  else Bubble.NoTick.

Definition MessageBubble (message : Message) (isOwn : bool) : Bubble.View :=
  if deleted message then Bubble.DeletedPlaceholder
  else Bubble.Body (content message)
                   (if isOwn then Some (tick message isOwn) else None).

(** *** EnhancedChat: the conversation list *)

(** The test both one-to-one branches share: the message runs between
    [receiverId] and the current user. *)
Definition between_peers (p : Props) (message : Message) : bool :=
  (JS.strict_eq (Some (sender_id message)) (receiverId p)
   && JS.strict_eq (receiver_id message) (userId p))
  || (JS.strict_eq (Some (sender_id message)) (userId p)
      && JS.strict_eq (receiver_id message) (receiverId p)).

(** [setMessages(prev => prev.some(m => m.id === message.id) ? prev
                                                   : [...prev, message])] *)
Definition append_if_new (message : Message) (prev : list Message) : list Message :=
  if JS.some (λ m, JS.strict_eq (id m) (id message)) prev then prev
  else (prev ++ [message])%list.

(** [message.sender_id !== user?.id] *)
Definition from_other (p : Props) (message : Message) : bool :=
  negb (JS.strict_eq (Some (sender_id message)) (userId p)).

Definition handleNewMessage (p : Props) (message : Message) (prev : list Message)
  : list Message * list Outbound :=
  if negb (isGroup p) && between_peers p message then
    (append_if_new message prev,
     if from_other p message && JS.truthy_string (userId p)
     then [PostMarkAllRead (receiverId p) None] else [])
  else (prev, []).

Definition handleGroupMessage (p : Props) (message : Message) (prev : list Message)
  : list Message * list Outbound :=
  if isGroup p && JS.strict_eq (group_chat_id message) (Some (chatId p)) then
    (append_if_new message prev,
     if from_other p message && JS.truthy_string (userId p)
     then [PostGroupMarkRead (chatId p)] else [])
  else (prev, []).

Definition handleReceiveMessage (p : Props) (message : Message) (prev : list Message)
  : list Message * list Outbound :=
  if (isGroup p && (JS.strict_eq (group_id message) (Some (chatId p))
                    || JS.strict_eq (group_chat_id message) (Some (chatId p))))
     || (negb (isGroup p) && between_peers p message) then
    (append_if_new message prev,
     if from_other p message then
       if isGroup p then [PostGroupMarkRead (chatId p)]
       else [PostMarkAllRead (receiverId p) None; PostMarkDelivered (id message)]
     else [])
  else (prev, []).

(** The inbound message events the component listens to; in this
    variant all three listeners are registered at once. *)
Inductive Inbound : Type :=
| new_message (message : Message)
| group_message (message : Message)
| receive_message (message : Message).

Definition payload (ev : Inbound) : Message :=
  match ev with
  | new_message m | group_message m | receive_message m => m
  end.

Definition on_inbound (p : Props) (ev : Inbound) (prev : list Message)
  : list Message * list Outbound :=
  match ev with
  | new_message m => handleNewMessage p m prev
  | group_message m => handleGroupMessage p m prev
  | receive_message m => handleReceiveMessage p m prev
  end.

(** The conversation after a sequence of inbound message events. *)
Definition conversation (p : Props) (evs : list Inbound) (prev : list Message)
  : list Message :=
  foldl (λ l ev, (on_inbound p ev l).1) prev evs.

(** [setMessages(prev => prev.map(msg =>
       msg.id === data.message_id ? { ...msg, deleted: true } : msg))] *)
Definition handleMessageDelete (data : message_deleted.data) (prev : list Message)
  : list Message :=
  (λ msg, if JS.strict_eq (id msg) (message_deleted.message_id data)
          then with_deleted msg else msg) <$> prev.

(** *** EnhancedChat: acknowledgments *)

(** [socket.on('messages_read', ...)] *)
Definition on_messages_read (p : Props) (data : messages_read.data)
    (prev : list Message) : list Message * list Outbound :=
  if negb (isGroup p)
     && JS.truthy_string (messages_read.receiver_id data)
     && JS.strict_eq (messages_read.receiver_id data) (receiverId p) then
    let ts := messages_read.timestamp data in
    ((λ m,
       if JS.strict_eq (Some (sender_id m)) (userId p)
          && JS.strict_eq (receiver_id m) (receiverId p) then
         with_delivery_status m
           (JS.assign (JS.property_key (receiverId p))
              {| delivered := Some true; read := Some true;
                 read_at := ts; delivered_at := None |}
              (default [] (delivery_status m)))
       else m) <$> prev, [])
  else (prev, []).

(** [socket.on('message_delivered', ...)] *)
Definition on_message_delivered (data : message_delivered.data)
    (prev : list Message) : list Message * list Outbound :=
  ((λ m,
     if JS.strict_eq (id m) (message_delivered.messageId data) then
       let rid := JS.property_key (message_delivered.receiver_id data) in
       with_delivery_status m
         (JS.assign rid
            {| delivered := Some true; read := None; read_at := None;
               delivered_at := message_delivered.timestamp data |}
            (default [] (delivery_status m)))
     else m) <$> prev, []).

(** *** EnhancedChat: the typing indicator *)

(** The ['typing'] listener:
    [setIsTyping(true); clearTimeout(typingTimeout);
     typingTimeout = setTimeout(() => setIsTyping(false), 3000)] *)
Definition handleTyping (_ : unit) (now : Z) (st : Indicator.t) : Indicator.t :=
  let tb := Timers.clearTimeout (Indicator.typingTimeout st) (Indicator.timers st) in
  let '(h, tb') := Timers.setTimeout Indicator.HideTyping now 3000 tb in
  Indicator.mk true (Some h) tb'.

(** The ['group_typing'] listener:
    [setIsTyping(true); setTimeout(() => setIsTyping(false), 3000)] *)
Definition handleGroupTyping (p : Props) (data : group_typing.data) (now : Z)
    (st : Indicator.t) : Indicator.t :=
  if isGroup p
     && JS.strict_eq (group_typing.groupId data) (chatId p)
     && negb (JS.strict_eq (Some (group_typing.userId data)) (userId p)) then
    let '(_, tb') :=
      Timers.setTimeout Indicator.HideTyping now 3000 (Indicator.timers st) in
    Indicator.mk true (Indicator.typingTimeout st) tb'
  else st.

(** *** EnhancedChat: the composer *)

(** [onChange] of the input: every change to a non-empty value emits. *)
Definition onChange (p : Props) (connected : bool) (value : string)
  : list Outbound :=
  if connected && bool_decide (0 < String.length value) then
    if isGroup p then [EmitGroupTyping (chatId p) (userId p)]
    else [EmitTyping (receiverId p) None false]
  else [].

(** The emits of a run of changes, each with the time it went out. *)
Definition typing_emits (p : Props) (connected : bool)
    (changes : list (Z * string)) : list (Z * Outbound) :=
  changes ≫= λ c, (λ e, (c.1, e)) <$> onChange p connected c.2.

End Part013.

(** ** [MessageBubble] and [EnhancedChat], REST variant
    (src/unnamed/part_014, first component file) *)

Module Part014.
Import Chat.

(** *** MessageBubble *)

(** For 1-to-1: check receiver_id in delivery_status.
    For group: check if any member has read it. *)
Definition deliveryStatus (message : Message) (isOwn : bool) : option Status :=
  if isOwn then
    match delivery_status message with
    | Some ds =>
        match (if JS.truthy_string (receiver_id message)
               then JS.get (JS.property_key (receiver_id message)) ds
               else None) with
        | Some st => Some st
        | None =>
            if JS.truthy_string (group_chat_id message)
            then JS.find (λ status, JS.truthy_bool (read status)) (JS.values ds)
            else None
        end
    | None => None
    end
  else None.

(** [... ? (deliveryStatus.read === true) : false] *)
Definition isRead (message : Message) (isOwn : bool) : bool :=
  match deliveryStatus message isOwn with
  | Some st => JS.strict_eq (read st) (Some true)
  | None => false
  end.

Definition isDelivered (message : Message) (isOwn : bool) : bool :=
  match deliveryStatus message isOwn with
  | Some st => JS.strict_eq (delivered st) (Some true)
  | None => false
  end.

(** [isRead ? '✓✓' : isDelivered ? '✓' : ''] *)
Definition tick (message : Message) (isOwn : bool) : Bubble.Tick :=
  if isRead message isOwn then Bubble.DoubleTick
  else if isDelivered message isOwn then Bubble.SingleTick
  else Bubble.NoTick.

Definition MessageBubble (message : Message) (isOwn : bool) : Bubble.View :=
  if deleted message then Bubble.DeletedPlaceholder
  else Bubble.Body (content message)
                   (if isOwn then Some (tick message isOwn) else None).

(** *** EnhancedChat: the conversation list *)

Definition handleNewMessage (p : Props) (message : Message) (prev : list Message)
  : list Message * list Outbound :=
  if (isGroup p && JS.strict_eq (group_chat_id message) (Some (chatId p)))
     || (negb (isGroup p) && Part013.between_peers p message) then
    (Part013.append_if_new message prev,
     if Part013.from_other p message && JS.truthy_string (userId p)
     then [PostMarkAllRead (if isGroup p then None else receiverId p)
                           (if isGroup p then Some (chatId p) else None)]
     else [])
  else (prev, []).

(** The conversation after a sequence of ['new_message'] events, the
    only inbound message event this variant listens to. *)
Definition conversation (p : Props) (ms : list Message) (prev : list Message)
  : list Message :=
  foldl (λ l m, (handleNewMessage p m l).1) prev ms.

Definition handleMessageDelete (data : message_deleted.data) (prev : list Message)
  : list Message :=
  (λ msg, if JS.strict_eq (id msg) (message_deleted.message_id data)
          then with_deleted msg else msg) <$> prev.

(** *** EnhancedChat: the scoped typing indicator *)

(** [setIsTyping(true);
     if (typingTimeoutRef.current) clearTimeout(typingTimeoutRef.current);
     typingTimeoutRef.current = setTimeout(() => setIsTyping(false), 3000)] *)
Definition show_and_rearm (now : Z) (st : Indicator.t) : Indicator.t :=
  let tb := Timers.clearTimeout (Indicator.typingTimeout st) (Indicator.timers st) in
  let '(h, tb') := Timers.setTimeout Indicator.HideTyping now 3000 tb in
  Indicator.mk true (Some h) tb'.

Definition handleTyping (p : Props) (event : TypingEvent.t) (now : Z)
    (st : Indicator.t) : Indicator.t :=
  if isGroup p then
    if TypingEvent.is_group event
       && JS.strict_eq (TypingEvent.group_chat_id event) (Some (chatId p))
       && negb (JS.strict_eq (Some (TypingEvent.sender_id event)) (userId p))
    then show_and_rearm now st else st
  else
    if negb (TypingEvent.is_group event)
       && JS.strict_eq (Some (TypingEvent.sender_id event)) (receiverId p)
       && JS.strict_eq (Some (TypingEvent.receiver_id event)) (userId p)
    then show_and_rearm now st else st.

(** *** EnhancedChat: the composer *)

(** [socket.emit('typing', { chat_id, receiver_id, is_group })] *)
Definition typing_signal (p : Props) : Outbound :=
  EmitTyping (if isGroup p then Some (chatId p) else receiverId p)
             (if isGroup p then None else receiverId p)
             (isGroup p).

(** [onChange] of the input, called at [now = Date.now()]. *)
Definition onChange (p : Props) (connected : bool) (now : Z) (value : string)
    (st : Composer.t) : Composer.t * list Outbound :=
  let last := Composer.lastTypingEmitRef st in
  let ref := Composer.emitTypingTimeoutRef st in
  if connected && bool_decide (0 < String.length value) then
    if bool_decide (1000 < now - last)%Z then
      (Composer.mk value now ref (Timers.clearTimeout ref (Composer.timers st)),
       [typing_signal p])
    else
      match ref with
      | None =>
          let '(h, tb) :=
            Timers.setTimeout
              (Composer.mkDeferred connected (Composer.newMessage st))
              now (1000 - (now - last)) (Composer.timers st) in
          (Composer.mk value last (Some h) tb, [])
      | Some _ => (Composer.mk value last ref (Composer.timers st), [])
      end
  else
    (Composer.mk value last None (Timers.clearTimeout ref (Composer.timers st)),
     []).

(** The callback [onChange] schedules, run at [now]. *)
Definition deferred_emit (p : Props) (cb : Composer.Deferred) (now : Z)
    (st : Composer.t) : Composer.t * list Outbound :=
  if Composer.captured_connected cb
     && bool_decide (0 < String.length (Composer.captured_newMessage cb)) then
    (Composer.mk (Composer.newMessage st) now None (Composer.timers st),
     [typing_signal p])
  else
    (Composer.mk (Composer.newMessage st) (Composer.lastTypingEmitRef st) None
                 (Composer.timers st), []).

(** What [handleSend] does to the composer once the post has gone
    through: the input is emptied, a pending emit is dropped and
    [lastTypingEmitRef.current = 0]. *)
Definition after_send (st : Composer.t) : Composer.t :=
  Composer.mk "" 0 None
    (Timers.clearTimeout (Composer.emitTypingTimeoutRef st) (Composer.timers st)).

(** One turn of the event loop.  The browser runs a timer only while it
    is pending and not before it is due. *)
Definition step (p : Props) (connected : bool) (now : Z) (i : Composer.Input)
    (st : Composer.t) : Composer.t * list Outbound :=
  match i with
  | Composer.Change value => onChange p connected now value st
  | Composer.Fire h =>
      match Timers.lookup h (Composer.timers st) with
      | Some x =>
          if bool_decide (Timers.due x ≤ now)%Z then
            deferred_emit p (Timers.callback x) now
              (Composer.mk (Composer.newMessage st)
                 (Composer.lastTypingEmitRef st)
                 (Composer.emitTypingTimeoutRef st)
                 (Timers.clearTimeout (Some h) (Composer.timers st)))
          else (st, [])
      | None => (st, [])
      end
  | Composer.Sent => (after_send st, [])
  end.

(** A run of the composer: the final state and the emits in the order
    they went out, each with its time. *)
Fixpoint run (p : Props) (connected : bool) (tr : list (Z * Composer.Input))
    (st : Composer.t) : Composer.t * list (Z * Outbound) :=
  match tr with
  | [] => (st, [])
  | (now, i) :: tr' =>
      let '(st', out) := step p connected now i st in
      let '(st'', log) := run p connected tr' st' in
      (st'', (((λ e, (now, e)) <$> out) ++ log)%list)
  end.

End Part014.

(** ** [SocketProvider] (src/frontend/src/contexts/SocketContext.tsx) *)

Module SocketContext.

(** What the provider sends to the API. *)
Inductive Request : Type :=
| PutUsersStatusMe (is_online : bool).

(** [newSocket.on('connect', ...)]: [setConnected(true)], then
    [apiClient.put('/users/status/me', { is_online: true })].  The state
    is the provider's [connected]; a failed request is caught and
    logged. *)
Definition on_connect (connected : bool) : bool * list Request :=
  (true, [PutUsersStatusMe true]).

(** [newSocket.on('disconnect', ...)]: [setConnected(false)], then
    [apiClient.put('/users/status/me', { is_online: false })]. *)
Definition on_disconnect (connected : bool) : bool * list Request :=
  (false, [PutUsersStatusMe false]).

End SocketContext.

(** ** Connection registry and presence tracker *)

Module Presence.

(** Modelled from the spec: a Connection, owned by the Connection
    Registry, belongs to exactly one user and one organization; the
    engine that keeps it runs on the server and is not among the
    sources. *)
Record Connection : Type := mkConnection {
  userId : string;
  orgId : string;
}.

(** Modelled from the spec: a PresenceRecord, one per user, with the
    online flag and the last-seen timestamp. *)
Record PresenceRecord : Type := mkRecord {
  online : bool;
  last_seen : option Z;
}.

(** Modelled from the spec: the two transition events the registry emits
    and the Presence Tracker consumes. *)
Inductive Kind : Type := came_online | went_offline.

(** Modelled from the spec: the registry's live connections by
    connection identifier, and the tracker's records by user. *)
Record Engine : Type := mk {
  registry : gmap nat Connection;
  records : gmap string PresenceRecord;
}.

(** Modelled from the spec: nothing is connected and nothing recorded
    when the engine starts. *)
Definition initial : Engine := mk ∅ ∅.

(** Modelled from the spec: [activeConnections(userId) ->
    set<connectionId>]. *)
Definition activeConnections (e : Engine) (u : string) : gset nat :=
  dom (filter (λ kc, userId kc.2 = u) (registry e)).

(** Modelled from the spec: the user's active-connection count. *)
Definition connection_count (e : Engine) (u : string) : nat :=
  size (activeConnections e u).

(** Modelled from the spec: the online flag of the user's
    PresenceRecord; a user without a record has never come online. *)
Definition online_flag (e : Engine) (u : string) : bool :=
  match records e !! u with
  | Some r => online r
  | None => false
  end.

(** Modelled from the spec: [onTransition(userId, orgId, kind,
    timestamp)].  On came-online: set online=true.  On went-offline: set
    online=false, last-seen=timestamp. *)
Definition onTransition (u o : string) (kind : Kind) (timestamp : Z)
    (rs : gmap string PresenceRecord) : gmap string PresenceRecord :=
  match kind with
  | came_online => <[u := mkRecord true (rs !! u ≫= last_seen)]> rs
  | went_offline => <[u := mkRecord false (Some timestamp)]> rs
  end.

(** Modelled from the spec: [register(connectionId, userId, orgId)].
    Registering the first connection for a user emits came-online;
    registering subsequent connections for an already-online user emits
    no transition.  A connection belongs to exactly one user, so an
    identifier that is live is not registered again. *)
Definition register (now : Z) (connectionId : nat) (u o : string) (e : Engine)
  : Engine :=
  match registry e !! connectionId with
  | Some _ => e
  | None =>
      mk (<[connectionId := mkConnection u o]> (registry e))
         (if bool_decide (connection_count e u = 0)
          then onTransition u o came_online now (records e)
          else records e)
  end.

(** Modelled from the spec: [deregister(connectionId)].  Deregistering
    the last connection for a user emits went-offline with the current
    timestamp; an identifier that is not live deregisters nothing. *)
Definition deregister (now : Z) (connectionId : nat) (e : Engine) : Engine :=
  match registry e !! connectionId with
  | None => e
  | Some c =>
      let left := mk (delete connectionId (registry e)) (records e) in
      if bool_decide (connection_count left (userId c) = 0)
      then mk (registry left)
              (onTransition (userId c) (orgId c) went_offline now (records e))
      else left
  end.

(** Modelled from the spec: the online flag is derived from the
    registry; the flag of a user's record says whether the registry
    holds one of the user's connections. *)
Definition flag_tracks_registry (e : Engine) : Prop :=
  ∀ u, online_flag e u = true ↔ ∃ c k, registry e !! c = Some k ∧ userId k = u.

(** Modelled from the spec: what reaches the registry, a handshake that
    succeeded or a transport that closed, each at its time. *)
Inductive Op : Type :=
| Register (now : Z) (connectionId : nat) (userId orgId : string)
| Deregister (now : Z) (connectionId : nat).

(** Modelled from the spec: the registry applies one operation at a
    time. *)
Definition step (e : Engine) (op : Op) : Engine :=
  match op with
  | Register now c u o => register now c u o e
  | Deregister now c => deregister now c e
  end.

(** Modelled from the spec: the engine after a sequence of
    operations. *)
Definition run (ops : list Op) : Engine := foldl step initial ops.

End Presence.

(** ** Recipient resolution *)

Module Router.

(** Modelled from the spec: the Room/Scope Router runs on the server and
    is not among the sources.  A scope is a 1:1 pair or a group, and it
    belongs to one organization. *)
Inductive Scope : Type :=
| Pair (orgId peerA peerB : string)
| Group (orgId groupId : string).

(** Modelled from the spec: what the router consults when it resolves a
    scope, the organization of each user and the member snapshot of each
    group as the membership collaborator returns it. *)
Record Directory : Type := mk {
  org_of : gmap string string;
  loadMembership : gmap string (list string);
}.

(** Modelled from the spec: the rejections of section 7 that resolution
    can end in. *)
Inductive Error : Type := ValidationError | TransientUnavailable.

(** Modelled from the spec: the organization a scope is constructed in. *)
Definition scope_org (s : Scope) : string :=
  match s with Pair o _ _ | Group o _ => o end.

(** Modelled from the spec: for a 1:1 scope the recipients are the two
    peers, for a group scope the current member snapshot; a failed
    membership lookup yields nothing to resolve. *)
Definition resolved (dir : Directory) (s : Scope) : option (list string) :=
  match s with
  | Pair _ a b => Some [a; b]
  | Group _ g => loadMembership dir !! g
  end.

(** Modelled from the spec: a user matches the scope's organization when
    the directory places the user in it. *)
Definition in_org (dir : Directory) (o u : string) : bool :=
  bool_decide (org_of dir !! u = Some o).

(** Modelled from the spec: [resolveRecipients(scope) -> set<userId>]
    with the organization-isolation check: if any resolved recipient's
    organization does not match the scope's, the whole resolution fails
    closed (empty set + error). *)
Definition resolveRecipients (dir : Directory) (s : Scope)
  : gset string * option Error :=
  match resolved dir s with
  | None => (∅, Some TransientUnavailable)
  | Some us =>
      if forallb (in_org dir (scope_org s)) us
      then (list_to_set us, None)
      else (∅, Some ValidationError)
  end.

End Router.

(** ** Concrete conversations used in the examples *)

Module Scenario.
Import Chat.

(** Alice has her chat with Bob open. *)
Definition alice_with_bob : Props := mkProps "bob" false (Some "bob") (Some "alice").

(** Alice has group G open. *)
Definition alice_in_G : Props := mkProps "G" true None (Some "alice").

(** A message from Alice to Bob, no status recorded yet. *)
Definition m1 : Message :=
  mkMessage "m1" "alice" (Some "bob") None None "hello" None false None false
            None "2024-01-01T10:00:00Z" (Some "Alice").

(** A second message from Alice to Bob. *)
Definition m2 : Message :=
  mkMessage "m2" "alice" (Some "bob") None None "still there?" None false None
            false None "2024-01-01T10:01:00Z" (Some "Alice").


Definition bob_read_at_t1 : messages_read.data :=
  messages_read.mk (Some "bob") (Some "t1").

Definition m1_delivered_at_t2 : message_delivered.data :=
  message_delivered.mk "m1" (Some "bob") (Some "t2").

(** Bob types in group G. *)
Definition bob_types_in_G : group_typing.data := group_typing.mk "bob" "G".

Definition bob_typing_event_in_G : TypingEvent.t :=
  TypingEvent.mk "bob" "" (Some "G") true.


(** The text of m1 is edited at t3. *)
Definition m1_edited_at_t3 : message_edited.data :=
  message_edited.mk "m1" "hello again" true "t3".

(** Alice connects her laptop (connection 1) and her phone
    (connection 2). *)
Definition alice_on_two_devices : list Presence.Op :=
  [Presence.Register 10 1 "alice" "acme"; Presence.Register 20 2 "alice" "acme"].

(** Two organizations: Alice and Bob work at acme, Mallory at globex. *)
Definition directory : Router.Directory :=
  Router.mk (<["alice" := "acme"]> (<["bob" := "acme"]> (<["mallory" := "globex"]> ∅)))
            (<["G" := ["alice"; "bob"]]> (<["X" := ["alice"; "mallory"]]> ∅)).

End Scenario.

(** ** More of JavaScript's strings *)

Module JSString.

(** [s.includes(q)] *)
Definition includes (s q : string) : bool :=
  bool_decide (is_Some (String.index 0 q s)).

(** A string as the engine holds it: its UTF-16 code units.  [length]
    counts them and [substring] cuts between them. *)
Definition utf16 : Type := list N.

(** A literal of the source all of whose characters are ASCII: one code
    unit per character. *)
Definition literal (s : string) : utf16 :=
  N_of_ascii <$> String.list_ascii_of_string s.

(** [s.length] *)
Definition length16 (s : utf16) : nat := length s.

(** [s.substring(0, n)] *)
Definition substring16_to (n : nat) (s : utf16) : utf16 := take n s.

(** [!!s]: the empty string is falsy. *)
Definition truthy16 (s : option utf16) : bool :=
  match s with
  | Some (_ :: _) => true
  | _ => false
  end.

End JSString.

(** ** Plain objects and their prototype *)

Module JSObject.

(** An object created by the literal [{}]: its own properties, and the
    object that an assignment to ["__proto__"] has put in the place of
    [Object.prototype] as its prototype, if any. *)
Record t (V : Type) : Type := mk {
  own : JS.object V;
  prototype : option V;
}.
Arguments mk {V} _ _.
Arguments own {V} _.
Arguments prototype {V} _.

(** [{}] *)
Definition empty {V} : t V := mk [] None.

(** [obj[k] = v] for an object [v].  The key ["__proto__"] reaches the
    setter inherited from [Object.prototype]: it replaces the prototype
    and creates no property.  Every other key becomes an own property
    (the data properties of [Object.prototype] are writable, so they are
    shadowed). *)
Definition assign {V} (k : string) (v : V) (o : t V) : t V :=
  if bool_decide (k = "__proto__") then mk (own o) (Some v)
  else mk (JS.assign k v (own o)) (prototype o).

(** What [obj[k]] evaluates to. *)
Inductive Got (V : Type) : Type :=
| Value (v : V)
| ObjectPrototype
| Builtin (k : string)
| Member (holder : V) (k : string)
| Undefined.
Arguments Value {V} _.
Arguments ObjectPrototype {V}.
Arguments Builtin {V} _.
Arguments Member {V} _ _.
Arguments Undefined {V}.

(** [obj[k]]: an own property; else, for ["__proto__"], the prototype the
    getter of [Object.prototype] returns (an installed object, or
    [Object.prototype] itself); else what the prototype chain answers:
    [holder[k]] when an object [holder] was installed, and otherwise the
    property of [Object.prototype] of that name, if it has one.
    [inherited k] tells whether [Object.prototype] has a property
    [k]. *)
Definition get {V} (inherited : string → bool) (k : string) (o : t V) : Got V :=
  match JS.get k (own o) with
  | Some v => Value v
  | None =>
      if bool_decide (k = "__proto__") then
        match prototype o with
        | Some v => Value v
        | None => ObjectPrototype
        end
      else
        match prototype o with
        | Some holder => Member holder k
        | None => if inherited k then Builtin k else Undefined
        end
  end.

(** The properties of [Object.prototype] other than the ["__proto__"]
    accessor, in an engine whose [Object.prototype] nothing has added
    to. *)
Definition standard (k : string) : bool :=
  bool_decide (k ∈ ["constructor"; "hasOwnProperty"; "isPrototypeOf";
                    "propertyIsEnumerable"; "toLocaleString"; "toString";
                    "valueOf"; "__defineGetter__"; "__defineSetter__";
                    "__lookupGetter__"; "__lookupSetter__"]).

End JSObject.

(** ** The remaining listeners and derived views of [EnhancedChat],
    socket variant (src/unnamed/part_013, third component file) *)

Module Part013Ext.
Import Chat.

(** [setMessages(prev => prev.map(msg =>
       msg.id === updatedMessage.id ? updatedMessage : msg))] *)
Definition handleMessageUpdate (updatedMessage : Message) (prev : list Message)
  : list Message :=
  (λ msg, if JS.strict_eq (id msg) (id updatedMessage)
          then updatedMessage else msg) <$> prev.

(** [{ ...msg, content: data.content, edited: data.edited,
       edited_at: data.edited_at }] *)
Definition with_edit (msg : Message) (data : message_edited.data) : Message :=
  {| id := id msg; sender_id := sender_id msg; receiver_id := receiver_id msg;
     group_id := group_id msg; group_chat_id := group_chat_id msg;
     content := message_edited.content data; reply_to := reply_to msg;
     edited := message_edited.edited data;
     edited_at := Some (message_edited.edited_at data);
     deleted := deleted msg; delivery_status := delivery_status msg;
     created_at := created_at msg; sender_name := sender_name msg |}.

Definition handleMessageEdited (data : message_edited.data) (prev : list Message)
  : list Message :=
  (λ msg, if JS.strict_eq (id msg) (message_edited.id data)
          then with_edit msg data else msg) <$> prev.

(** Every socket event whose listener reads or writes [messages].
    ['group_read_update'] only refreshes the group's last-seen panel. *)
Inductive Event : Type :=
| inbound (ev : Part013.Inbound)
| message_updated (updatedMessage : Message)
| message_edited (data : message_edited.data)
| message_deleted (data : message_deleted.data)
| messages_read (data : messages_read.data)
| group_read_update
| message_delivered (data : message_delivered.data).

Definition on_event (p : Props) (ev : Event) (prev : list Message)
  : list Message * list Outbound :=
  match ev with
  | inbound ev => Part013.on_inbound p ev prev
  | message_updated m => (handleMessageUpdate m prev, [])
  | message_edited data => (handleMessageEdited data prev, [])
  | message_deleted data => (Part013.handleMessageDelete data prev, [])
  | messages_read data => Part013.on_messages_read p data prev
  | group_read_update => (prev, [])
  | message_delivered data => Part013.on_message_delivered data prev
  end.

(** The conversation after a sequence of socket events. *)
Definition conversation (p : Props) (evs : list Event) (prev : list Message)
  : list Message :=
  foldl (λ l ev, (on_event p ev l).1) prev evs.

(** The message an event brings from the server, whole: the payload of
    the three inbound events and of ['message_updated']. *)
Definition carried (ev : Event) : option Message :=
  match ev with
  | inbound ev => Some (Part013.payload ev)
  | message_updated m => Some m
  | _ => None
  end.

Definition is_update (ev : Event) : bool :=
  match ev with message_updated _ => true | _ => false end.

(** [searchQuery ? messages.filter(m =>
       m.content?.toLowerCase().includes(searchQuery.toLowerCase()))
     : messages], over whatever [toLowerCase] the engine provides. *)
Definition filteredMessages (toLowerCase : string → string)
    (searchQuery : string) (messages : list Message) : list Message :=
  if JS.truthy_string (Some searchQuery) then
    filter (λ m, JSString.includes (toLowerCase (content m))
                                   (toLowerCase searchQuery) = true) messages
  else messages.

(** [const map = {}; messages.forEach(m => { map[m.id] = m; })] *)
Definition messageLookup (messages : list Message) : JSObject.t Message :=
  foldl (λ map m, JSObject.assign (id m) m map) JSObject.empty messages.

(** [message.quoted_message ||
     (message.reply_to ? messageLookup[message.reply_to] : undefined)],
    with the populated reply, which the record leaves out, passed
    beside the message. *)
Definition quoted (inherited : string → bool) (messages : list Message)
    (quoted_message : option Message) (message : Message)
  : JSObject.Got Message :=
  match quoted_message with
  | Some q => JSObject.Value q
  | None =>
      if JS.truthy_string (reply_to message)
      then JSObject.get inherited (JS.property_key (reply_to message))
                        (messageLookup messages)
      else JSObject.Undefined
  end.

End Part013Ext.

(** ** The listeners of [EnhancedChat], REST variant, taken together
    (src/unnamed/part_014, first component file) *)

Module Part014Ext.
Import Chat.

Definition handleMessageUpdate (updatedMessage : Message) (prev : list Message)
  : list Message :=
  (λ msg, if JS.strict_eq (id msg) (id updatedMessage)
          then updatedMessage else msg) <$> prev.

Inductive Event : Type :=
| new_message (message : Message)
| message_updated (updatedMessage : Message)
| message_deleted (data : message_deleted.data).

Definition on_event (p : Props) (ev : Event) (prev : list Message)
  : list Message * list Outbound :=
  match ev with
  | new_message m => Part014.handleNewMessage p m prev
  | message_updated m => (handleMessageUpdate m prev, [])
  | message_deleted data => (Part014.handleMessageDelete data prev, [])
  end.

Definition conversation (p : Props) (evs : list Event) (prev : list Message)
  : list Message :=
  foldl (λ l ev, (on_event p ev l).1) prev evs.

End Part014Ext.

(** ** Runs of timer callbacks *)

Module ComposerRuns.

Definition is_fire (e : Z * Composer.Input) : bool :=
  match e.2 with Composer.Fire _ => true | _ => false end.

End ComposerRuns.

(** ** Desktop notifications of [SocketProvider]
    (src/frontend/src/contexts/SocketContext.tsx) *)

Module SocketContextExt.
Import Chat.

Inductive NotificationPermission : Type := default | granted | denied.

(** The [data] the provider attaches to a notification. *)
Record NotificationData : Type := mkData {
  messageId : string;
  chatId : option string;
  isGroup : bool;
}.

(** The [options] the provider passes: [{ body, data }]. *)
Record NotificationOptions : Type := mkOptions {
  body : option string;
  data : option NotificationData;
}.

(** What [new Notification(title, { ..., tag: notificationKey,
    ...options })] puts on screen. *)
Record Notification : Type := mkNotification {
  title : string;
  tag : string;
  shown_body : option string;
  shown_data : option NotificationData;
}.

(** [notificationPermissionRef.current] and
    [lastNotificationTimeRef.current]. *)
Record Notifier : Type := mkNotifier {
  notificationPermissionRef : NotificationPermission;
  lastNotificationTimeRef : gmap string Z;
}.

Definition initial : Notifier := mkNotifier default ∅.

(** [`${title}-${options?.body || ''}`] *)
Definition notificationKey (title : string) (options : option NotificationOptions)
  : string :=
  String.append title
    (String.append "-" (if JS.truthy_string (options ≫= body)
                        then JS.property_key (options ≫= body) else "")).

(** [showNotification(title, options)] called at [now = Date.now()];
    [supported] is ['Notification' in window]. *)
Definition showNotification (supported : bool) (now : Z) (title : string)
    (options : option NotificationOptions) (st : Notifier)
  : Notifier * option Notification :=
  if negb supported then (st, None)
  else match notificationPermissionRef st with
       | granted =>
           let key := notificationKey title options in
           match lastNotificationTimeRef st !! key with
           | Some lastTime =>
               if negb (bool_decide (lastTime = 0%Z))
                  && bool_decide (now - lastTime < 2000)%Z
               then (st, None)
               else (mkNotifier granted (<[key := now]> (lastNotificationTimeRef st)),
                     Some (mkNotification title key (options ≫= body)
                                          (options ≫= data)))
           | None =>
               (mkNotifier granted (<[key := now]> (lastNotificationTimeRef st)),
                Some (mkNotification title key (options ≫= body)
                                     (options ≫= data)))
           end
       | _ => (st, None)
       end.

(** One call of [showNotification]. *)
Record Call : Type := mkCall {
  at_time : Z;
  call_title : string;
  call_options : option NotificationOptions;
}.

(** A sequence of calls: the final state and the notifications put on
    screen, each with its time. *)
Fixpoint run (supported : bool) (calls : list Call) (st : Notifier)
  : Notifier * list (Z * Notification) :=
  match calls with
  | [] => (st, [])
  | c :: calls' =>
      let '(st', shown) :=
        showNotification supported (at_time c) (call_title c) (call_options c) st in
      let '(st'', log) := run supported calls' st' in
      (st'', match shown with
             | Some n => (at_time c, n) :: log
             | None => log
             end)
  end.

(** The times at which a notification with tag [key] went on screen. *)
Definition times_of (key : string) (log : list (Z * Notification)) : list Z :=
  (filter (λ e, tag e.2 = key) log).*1.

(** The provider's own [interface Message]; the two texts a
    notification is cut from are held as their code units. *)
Record IncomingMessage : Type := mkIncoming {
  incoming_id : string;
  incoming_sender_id : string;
  incoming_receiver_id : option string;
  incoming_group_chat_id : option string;
  incoming_content : JSString.utf16;
  incoming_sender_name : option JSString.utf16;
  incoming_created_at : string;
}.

(** The arguments of one [showNotification(title, { body, data })]
    call. *)
Record ShowNotification : Type := mkShow {
  show_title : JSString.utf16;
  show_body : JSString.utf16;
  show_data : NotificationData;
}.

(** The ['new_message'] listener of the provider, for the signed-in user
    [user_id]: the call of [showNotification] it makes, if any. *)
Definition handleNewMessage (user_id : string) (message : IncomingMessage)
  : option ShowNotification :=
  if negb (JS.strict_eq (incoming_sender_id message) user_id) then
    let isGroup := JS.truthy_string (incoming_group_chat_id message) in
    let senderName :=
      if JSString.truthy16 (incoming_sender_name message)
      then from_option (λ s, s) [] (incoming_sender_name message)
      else JSString.literal "Someone" in
    let title :=
      if isGroup then (senderName ++ JSString.literal " (Group)")%list
      else senderName in
    let body :=
      if JSString.truthy16 (Some (incoming_content message))
      then incoming_content message else JSString.literal "New message" in
    Some (mkShow title
            (if bool_decide (100 < JSString.length16 body)
             then (JSString.substring16_to 100 body ++ JSString.literal "...")%list
             else body)
            (mkData (incoming_id message)
                    (if isGroup then incoming_group_chat_id message
                     else incoming_receiver_id message)
                    isGroup))
  else None.

End SocketContextExt.

(** ** The API client (src/frontend/src/lib/api.ts) *)

Module ApiClient.

(** What [response.json()] gives: a rejection, [null], or a value.
    [J] is the type of parsed values. *)
Inductive JsonResult (J : Type) : Type :=
| Rejects
| Null
| Value (j : J).
Arguments Rejects {J}.
Arguments Null {J}.
Arguments Value {J} _.

Record Response (J : Type) : Type := mkResponse {
  status : nat;
  statusText : string;
  content_type : option string;
  json : JsonResult J;
}.
Arguments mkResponse {J} _ _ _ _.
Arguments status {J} _.
Arguments statusText {J} _.
Arguments content_type {J} _.
Arguments json {J} _.

(** [response.ok] *)
Definition ok {J} (r : Response J) : bool :=
  bool_decide (200 ≤ status r) && bool_decide (status r ≤ 299).

(** The network as one run of the client meets it: the outcome of the
    n-th [fetch], [None] when the fetch itself rejects. *)
Definition Network (J : Type) : Type := nat → option (Response J).

(** What the client has done so far: the URLs it fetched, in order
    (relative to the base URL), and whether it sent the browser to ['/']. *)
Record World : Type := mkWorld {
  fetched : list string;
  redirected : bool;
}.

Definition pristine : World := mkWorld [] false.

Inductive Failure : Type :=
| ApiError (detail : string) (status : nat)
| FetchRejected
| TokenRefreshFailed
| JsonRejected.

(** What the promise of [request] settles to; [Empty] is the [{}]
    returned for a response that is not JSON. *)
Inductive Settled (J : Type) : Type :=
| ResolvedEmpty
| ResolvedNull
| Resolved (j : J)
| Thrown (e : Failure).
Arguments ResolvedEmpty {J}.
Arguments ResolvedNull {J}.
Arguments Resolved {J} _.
Arguments Thrown {J} _.

Section Client.
Context {J : Type}.
(** [errorData.detail] and [errorData.message], as strings when truthy. *)
Variable detail_of message_of : J → option string.
(** [typeof window !== 'undefined'] *)
Variable in_browser : bool.

(** [fetch], counted. *)
Definition fetch (net : Network J) (url : string) (w : World)
  : option (Response J) * World :=
  (net (length (fetched w)), mkWorld (fetched w ++ [url]) (redirected w)).

(** [window.location.href = '/'] under the browser check. *)
Definition redirect (w : World) : World :=
  mkWorld (fetched w) (redirected w || in_browser).

(** [refreshToken()], entered with no refresh in flight: [None] when
    it resolves, the error it throws otherwise. *)
Definition refreshToken (net : Network J) (w : World) : option Failure * World :=
  let '(r, w1) := fetch net "/auth/refresh" w in
  match r with
  | Some response =>
      if ok response then (None, w1)
      else (Some TokenRefreshFailed, redirect w1)
  | None => (Some FetchRejected, redirect w1)
  end.

(** The error thrown for a response that is not ok. *)
Definition api_error (response : Response J) : Failure :=
  match json response with
  | Value errorData =>
      ApiError
        (if JS.truthy_string (detail_of errorData)
         then JS.property_key (detail_of errorData)
         else if JS.truthy_string (message_of errorData)
              then JS.property_key (message_of errorData)
              else "An error occurred")
        (status response)
  | Null | Rejects =>
      ApiError
        (String.append "HTTP "
           (String.append (pretty (status response))
              (String.append ": " (statusText response))))
        (status response)
  end.

(** What [request] does with the response it ends up with. *)
Definition settle (response : Response J) : Settled J :=
  if negb (ok response) then Thrown (api_error response)
  else if JS.truthy_string (content_type response)
          && JSString.includes (JS.property_key (content_type response))
                               "application/json"
       then match json response with
            | Value j => Resolved j
            | Null => ResolvedNull
            | Rejects => Thrown JsonRejected
            end
       else ResolvedEmpty.

(** [request(endpoint, options)] *)
Definition request (net : Network J) (endpoint : string) (w : World)
  : Settled J * World :=
  let '(r, w1) := fetch net endpoint w in
  match r with
  | None => (Thrown FetchRejected, w1)
  | Some response =>
      if bool_decide (status response = 401)
         && negb (JS.strict_eq endpoint "/auth/refresh") then
        match refreshToken net w1 with
        | (Some e, w2) => (Thrown e, redirect w2)
        | (None, w2) =>
            let '(r', w3) := fetch net endpoint w2 in
            match r' with
            | Some retried => (settle retried, w3)
            | None => (Thrown FetchRejected, redirect w3)
            end
        end
      else (settle response, w1)
  end.

End Client.

(** Whether a settled request resolved. *)
Definition resolved {J} (s : Settled J) : bool :=
  match s with Thrown _ => false | _ => true end.

End ApiClient.

(** ** Timestamps (src/frontend/src/lib/timeUtils.ts) *)

Module TimeUtils.

(** [\d] *)
Definition is_digit (c : ascii) : bool :=
  bool_decide (48 ≤ nat_of_ascii c) && bool_decide (nat_of_ascii c ≤ 57).

(** [/[Zz]$/.test(iso)] *)
Definition ends_with_zone_letter (iso : string) : bool :=
  match last (String.list_ascii_of_string iso) with
  | Some c => bool_decide (c = "Z"%char) || bool_decide (c = "z"%char)
  | None => false
  end.

(** [/[+-]\d{2}:\d{2}$/.test(iso)] *)
Definition ends_with_offset (iso : string) : bool :=
  match rev (String.list_ascii_of_string iso) with
  | m2 :: m1 :: colon :: h2 :: h1 :: sign :: _ =>
      (bool_decide (sign = "+"%char) || bool_decide (sign = "-"%char))
      && is_digit h1 && is_digit h2 && bool_decide (colon = ":"%char)
      && is_digit m1 && is_digit m2
  | _ => false
  end.

(** [(?:\.\d+)?$] *)
Definition optional_fraction (rest : list ascii) : bool :=
  match rest with
  | [] => true
  | dot :: digits =>
      bool_decide (dot = "."%char)
      && negb (bool_decide (digits = [])) && forallb is_digit digits
  end.

(** [/^\d{4}-\d{2}-\d{2}T\d{2}:\d{2}:\d{2}(?:\.\d+)?$/.test(iso)] *)
Definition is_naive (iso : string) : bool :=
  match String.list_ascii_of_string iso with
  | y1 :: y2 :: y3 :: y4 :: dash1 :: mo1 :: mo2 :: dash2 :: d1 :: d2 :: t
    :: h1 :: h2 :: colon1 :: mi1 :: mi2 :: colon2 :: s1 :: s2 :: rest =>
      is_digit y1 && is_digit y2 && is_digit y3 && is_digit y4
      && bool_decide (dash1 = "-"%char)
      && is_digit mo1 && is_digit mo2
      && bool_decide (dash2 = "-"%char)
      && is_digit d1 && is_digit d2
      && bool_decide (t = "T"%char)
      && is_digit h1 && is_digit h2
      && bool_decide (colon1 = ":"%char)
      && is_digit mi1 && is_digit mi2
      && bool_decide (colon2 = ":"%char)
      && is_digit s1 && is_digit s2
      && optional_fraction rest
  | _ => false
  end.

(** [normalizeToISO(iso)]; [None] is [null]. *)
Definition normalizeToISO (iso : option string) : option string :=
  if negb (JS.truthy_string iso) then None
  else
    let s := JS.property_key iso in
    if ends_with_zone_letter s || ends_with_offset s then Some s
    else if is_naive s then Some (String.append s "Z")
    else Some s.

End TimeUtils.

(** ** The member picker of the create-group page
    (src/frontend/src/app/chat/layout.tsx, second component file) *)

Module CreateGroupPage.

(** [setSelectedUsers(prev => prev.includes(userId)
       ? prev.filter(id => id !== userId) : [...prev, userId])] *)
Definition toggleUser (userId : string) (prev : list string) : list string :=
  if bool_decide (userId ∈ prev) then filter (λ id, id ≠ userId) prev
  else prev ++ [userId].

End CreateGroupPage.

(** ** The pending-task badge of the sidebar (src/unnamed/part_010),
    fed by [useTaskSocket] (src/unnamed/part_014) *)

Module Sidebar.

(** What moves [pendingCount]: the count fetched from the server, a
    ['task_created'] event and a ['task_status_changed'] event. *)
Inductive BadgeEvent : Type :=
| fetchPendingCount (data_length : nat)
| task_created (status : string)
| task_status_changed (status old_status : string).

Definition on_badge_event (prev : Z) (ev : BadgeEvent) : Z :=
  match ev with
  | fetchPendingCount n => Z.of_nat n
  | task_created status =>
      if JS.strict_eq status "pending" then (prev + 1)%Z else prev
  | task_status_changed status old_status =>
      if JS.strict_eq old_status "pending"
         && negb (JS.strict_eq status "pending")
      then Z.max 0 (prev - 1)
      else if negb (JS.strict_eq old_status "pending")
              && JS.strict_eq status "pending"
           then (prev + 1)%Z
           else prev
  end.

(** [pendingCount] after a sequence of events, from [useState(0)]. *)
Definition pendingCount (evs : list BadgeEvent) : Z :=
  foldl on_badge_event 0%Z evs.

End Sidebar.

(** * Properties *)

(** ** Plain objects *)

Lemma get_assign_eq {V} k (v : V) o : JS.get k (JS.assign k v o) = Some v.
Proof.
  induction o as [|[k' v'] o IH]; simpl.
  - by rewrite bool_decide_eq_true_2.
  - destruct (decide (k' = k)) as [->|Hne].
    + rewrite bool_decide_eq_true_2; [|done]. simpl.
      by rewrite bool_decide_eq_true_2.
    + rewrite bool_decide_eq_false_2; [|done]. simpl.
      by rewrite bool_decide_eq_false_2.
Qed.

Lemma get_assign_ne {V} k k' (v : V) o :
  k ≠ k' → JS.get k' (JS.assign k v o) = JS.get k' o.
Proof.
  intros Hne. induction o as [|[k0 v0] o IH]; simpl.
  - by rewrite bool_decide_eq_false_2.
  - destruct (decide (k0 = k)) as [->|Hne0].
    + rewrite bool_decide_eq_true_2; [|done]. simpl.
      by rewrite !bool_decide_eq_false_2.
    + rewrite bool_decide_eq_false_2; [|done]. simpl. by rewrite IH.
Qed.

Lemma assign_assign {V} k (v : V) o :
  JS.assign k v (JS.assign k v o) = JS.assign k v o.
Proof.
  induction o as [|[k' v'] o IH]; simpl.
  - by rewrite bool_decide_eq_true_2.
  - destruct (decide (k' = k)) as [->|Hne].
    + rewrite bool_decide_eq_true_2; [|done]. simpl.
      by rewrite bool_decide_eq_true_2.
    + rewrite bool_decide_eq_false_2; [|done]. simpl.
      rewrite bool_decide_eq_false_2; [|done]. by rewrite IH.
Qed.

(** ** Delivery status *)

Section Delivery.
Import Chat.

Lemma with_delivery_status_twice m ds ds' :
  with_delivery_status (with_delivery_status m ds) ds' = with_delivery_status m ds'.
Proof. reflexivity. Qed.

Lemma delivery_status_with m ds :
  delivery_status (with_delivery_status m ds) = Some ds.
Proof. reflexivity. Qed.

Lemma find_by_id_fmap (f : Message → Message) mid l :
  (∀ m, id (f m) = id m) →
  List.find (λ m, bool_decide (id m = mid)) (f <$> l)
  = f <$> List.find (λ m, bool_decide (id m = mid)) l.
Proof.
  intros Hid. induction l as [|m l IH]; [done|]. simpl.
  rewrite Hid. by destruct (bool_decide (id m = mid)).
Qed.

Lemma status_of_fmap (f : Message → Message) mid r l :
  (∀ m, id (f m) = id m) →
  status_of mid r (f <$> l)
  = (m ← List.find (λ m, bool_decide (id m = mid)) l;
     ds ← delivery_status (f m); JS.get r ds).
Proof.
  intros Hid. unfold status_of. rewrite find_by_id_fmap; [|done].
  by destruct (List.find _ l).
Qed.

Lemma fmap_idempotent {A} (f : A → A) (l : list A) :
  (∀ x, f (f x) = f x) → f <$> (f <$> l) = f <$> l.
Proof.
  intros Hf. rewrite <- list_fmap_compose. apply list_fmap_ext.
  intros _ x _. apply Hf.
Qed.

(** The entry [message_delivered] writes replaces whatever was recorded
    under the key: the read flag and its time are gone. *)
Lemma delivered_overwrites_entry data prev m :
  List.find (λ x, bool_decide (id x = message_delivered.messageId data)) prev
    = Some m →
  status_of (message_delivered.messageId data)
            (JS.property_key (message_delivered.receiver_id data))
            (Part013.on_message_delivered data prev).1
  = Some (mkStatus (Some true) None None (message_delivered.timestamp data)).
Proof.
  intros Hfind. unfold Part013.on_message_delivered. simpl.
  rewrite status_of_fmap.
  - rewrite Hfind. simpl. apply find_some in Hfind as [_ Hid].
    unfold JS.strict_eq. rewrite Hid. simpl. apply get_assign_eq.
  - intros x. by destruct (JS.strict_eq _ _).
Qed.

(** [message_delivered] never turns a read flag on: an entry that is
    read afterwards was that very entry before. *)
Lemma delivered_never_sets_read data prev mid rid st :
  status_of mid rid (Part013.on_message_delivered data prev).1 = Some st →
  read st = Some true →
  status_of mid rid prev = Some st.
Proof.
  unfold Part013.on_message_delivered. simpl. intros Hst Hread.
  rewrite status_of_fmap in Hst; [|intros x; by destruct (JS.strict_eq _ _)].
  unfold status_of. destruct (List.find _ prev) as [m|]; [|done]. simpl in *.
  destruct (JS.strict_eq (id m) _); [|done]. simpl in Hst.
  destruct (decide (JS.property_key (message_delivered.receiver_id data) = rid))
    as [<-|Hne].
  - rewrite get_assign_eq in Hst. injection Hst as <-. done.
  - rewrite get_assign_ne in Hst; [|done].
    destruct (delivery_status m); [done|]. done.
Qed.

(** C1, at the failing input.  Alice's message m1 to Bob is marked read
    at t1 and shows the double tick; the delivery acknowledgment for m1
    that arrives afterwards (t2) rewrites Bob's entry without a read
    flag, and the bubble falls back to the single tick.  The delivered
    flag itself stays set. *)
Theorem late_delivery_ack_erases_read :
  let read_state :=
    (Part013.on_messages_read Scenario.alice_with_bob Scenario.bob_read_at_t1
       [Scenario.m1]).1 in
  let after :=
    (Part013.on_message_delivered Scenario.m1_delivered_at_t2 read_state).1 in
  status_of "m1" "bob" read_state
    = Some (mkStatus (Some true) (Some true) (Some "t1") None)
  ∧ (λ m, Part013.tick m true) <$> read_state = [Bubble.DoubleTick]
  ∧ status_of "m1" "bob" after
    = Some (mkStatus (Some true) None None (Some "t2"))
  ∧ (λ m, Part013.tick m true) <$> after = [Bubble.SingleTick].
Proof. by vm_compute. Qed.

Lemma messages_read_twice p rd prev :
  (Part013.on_messages_read p rd (Part013.on_messages_read p rd prev).1).1
  = (Part013.on_messages_read p rd prev).1.
Proof.
  unfold Part013.on_messages_read.
  destruct (negb (isGroup p) && _ && _) eqn:Hguard; cbn [fst]; [|done].
  apply fmap_idempotent. intros m.
  destruct (JS.strict_eq (Some (sender_id m)) (userId p)
            && JS.strict_eq (receiver_id m) (receiverId p)) eqn:Hown.
  - cbn [sender_id receiver_id with_delivery_status]. rewrite Hown.
    rewrite with_delivery_status_twice, delivery_status_with. simpl default.
    by rewrite assign_assign.
  - by rewrite Hown.
Qed.

Lemma message_delivered_twice dd prev :
  (Part013.on_message_delivered dd (Part013.on_message_delivered dd prev).1).1
  = (Part013.on_message_delivered dd prev).1.
Proof.
  unfold Part013.on_message_delivered. cbn [fst].
  apply fmap_idempotent. intros m.
  destruct (JS.strict_eq (id m) _) eqn:Hid.
  - cbn [id with_delivery_status]. rewrite Hid.
    rewrite with_delivery_status_twice, delivery_status_with. simpl default.
    by rewrite assign_assign.
  - by rewrite Hid.
Qed.

(** Neither acknowledgment handler sends anything out. *)
Lemma acknowledgments_silent p rd dd prev :
  (Part013.on_messages_read p rd prev).2 = []
  ∧ (Part013.on_message_delivered dd prev).2 = [].
Proof.
  unfold Part013.on_messages_read, Part013.on_message_delivered.
  by destruct (negb (isGroup p) && _ && _).
Qed.

(** C5.  Handling the same [messages_read] payload, or the same
    [message_delivered] payload, a second time leaves the conversation
    exactly as the first handling left it, and the two handlings together
    send nothing out (so at most one event). *)
Theorem acknowledgments_idempotent (p : Props) (rd : messages_read.data)
    (dd : message_delivered.data) (prev : list Message) :
  let once_r := Part013.on_messages_read p rd prev in
  let twice_r := Part013.on_messages_read p rd once_r.1 in
  let once_d := Part013.on_message_delivered dd prev in
  let twice_d := Part013.on_message_delivered dd once_d.1 in
  twice_r.1 = once_r.1
  ∧ length (once_r.2 ++ twice_r.2) ≤ 1
  ∧ twice_d.1 = once_d.1
  ∧ length (once_d.2 ++ twice_d.2) ≤ 1.
Proof.
  intros once_r twice_r once_d twice_d. subst once_r twice_r once_d twice_d.
  split; [apply messages_read_twice|].
  split.
  { rewrite !(λ l, proj1 (acknowledgments_silent p rd dd l)). simpl. lia. }
  split; [apply message_delivered_twice|].
  rewrite !(λ l, proj2 (acknowledgments_silent p rd dd l)). simpl. lia.
Qed.

(** On the key of C6 the read acknowledgment leaves no delivered time:
    after Bob's mark-read at t1 reaches Alice's open chat, the entry of
    (m1, Bob) is not one in which the delivered and the read flag both
    carry t1. *)
Lemma read_ack_records_no_delivered_time :
  ¬ (∃ st,
       status_of "m1" "bob"
         (Part013.on_messages_read Scenario.alice_with_bob
            Scenario.bob_read_at_t1 [Scenario.m1]).1 = Some st
       ∧ delivered st = Some true ∧ read st = Some true
       ∧ delivered_at st = Some "t1" ∧ read_at st = Some "t1").
Proof.
  intros (st & Hst & _ & _ & Hat & _). vm_compute in Hst.
  injection Hst as <-. discriminate Hat.
Qed.

End Delivery.

(** ** Read receipts in the bubble *)

Section Receipts.
Import Chat.




End Receipts.

(** ** The conversation list *)

Section Conversation.
Import Chat.

(** After the [message_deleted] event for m1, the entry of m1 is not one
    that is flagged deleted with its content cleared: the text is still
    in the list. *)
Lemma message_deleted_keeps_content :
  ¬ (∃ msg,
       Part013.handleMessageDelete (message_deleted.mk "m1")
         [Scenario.m1; Scenario.m2] !! 0 = Some msg
       ∧ deleted msg = true ∧ content msg = "").
Proof.
  intros (msg & Hmsg & _ & Hcontent). vm_compute in Hmsg.
  injection Hmsg as <-. discriminate Hcontent.
Qed.

(** C8, as the handler has it.  A [message_deleted] event keeps the
    length and the order of the conversation.  The message with the
    event's id gets its deleted flag set and keeps every other property,
    its content included; both variants of the bubble then render the
    deleted placeholder instead of the content.  Every other message is
    left as it was.  Both variants of the handler agree. *)
Theorem delete_marks_tombstone (data : message_deleted.data)
    (prev : list Message) (i : nat) (msg : Message) :
  prev !! i = Some msg →
  let after := Part013.handleMessageDelete data prev in
  Part014.handleMessageDelete data prev = after
  ∧ length after = length prev
  ∧ (id msg ≠ message_deleted.message_id data → after !! i = Some msg)
  ∧ (id msg = message_deleted.message_id data →
     ∃ msg',
       after !! i = Some msg'
       ∧ deleted msg' = true
       ∧ content msg' = content msg
       ∧ id msg' = id msg
       ∧ sender_id msg' = sender_id msg
       ∧ receiver_id msg' = receiver_id msg
       ∧ group_id msg' = group_id msg
       ∧ group_chat_id msg' = group_chat_id msg
       ∧ reply_to msg' = reply_to msg
       ∧ edited msg' = edited msg
       ∧ edited_at msg' = edited_at msg
       ∧ delivery_status msg' = delivery_status msg
       ∧ created_at msg' = created_at msg
       ∧ sender_name msg' = sender_name msg
       ∧ ∀ isOwn,
           Part013.MessageBubble msg' isOwn = Bubble.DeletedPlaceholder
           ∧ Part014.MessageBubble msg' isOwn = Bubble.DeletedPlaceholder).
Proof.
  intros Hi after. subst after.
  unfold Part013.handleMessageDelete, Part014.handleMessageDelete.
  split; [done|]. split; [apply length_fmap|].
  rewrite list_lookup_fmap, Hi. simpl. unfold JS.strict_eq. split.
  - intros Hne. by rewrite bool_decide_eq_false_2.
  - intros Heq. rewrite bool_decide_eq_true_2; [|done].
    exists (with_deleted msg). by repeat split.
Qed.

Lemma delete_marks_tombstone_witness :
  Part013.handleMessageDelete (message_deleted.mk "m1")
    [Scenario.m1; Scenario.m2] !! 1 = Some Scenario.m2
  ∧ ∃ msg',
      Part013.handleMessageDelete (message_deleted.mk "m1")
        [Scenario.m1; Scenario.m2] !! 0 = Some msg'
      ∧ deleted msg' = true ∧ content msg' = "hello".
Proof.
  split.
  - apply (delete_marks_tombstone (message_deleted.mk "m1")
             [Scenario.m1; Scenario.m2] 1 Scenario.m2 eq_refl).
    discriminate.
  - destruct (delete_marks_tombstone (message_deleted.mk "m1")
                [Scenario.m1; Scenario.m2] 0 Scenario.m1 eq_refl)
      as (_ & _ & _ & Hdel).
    destruct (Hdel eq_refl) as (msg' & H0 & Hd & Hc & _).
    exists msg'. by repeat split.
Defined.

(** An id that is already in the list keeps a message out. *)
Lemma append_if_new_known (message : Message) (prev : list Message) :
  id message ∈ id <$> prev → Part013.append_if_new message prev = prev.
Proof.
  intros Hin. unfold Part013.append_if_new, JS.some.
  apply list_elem_of_fmap in Hin as (m & Hid & Hm).
  replace (existsb _ prev) with true; [done|].
  symmetry. apply existsb_exists. exists m. split.
  - by apply list_elem_of_In.
  - unfold JS.strict_eq. by apply bool_decide_eq_true_2.
Qed.

Lemma append_if_new_NoDup (message : Message) (prev : list Message) :
  NoDup (id <$> prev) → NoDup (id <$> Part013.append_if_new message prev).
Proof.
  intros Hnd. unfold Part013.append_if_new, JS.some.
  destruct (existsb _ prev) eqn:Hex; [done|].
  rewrite fmap_app. apply NoDup_app. split; [done|]. split.
  - intros x Hx Hx'. apply list_elem_of_singleton in Hx'. subst x.
    apply list_elem_of_fmap in Hx as (m & Hid & Hm).
    assert (existsb (λ m0, JS.strict_eq (id m0) (id message)) prev = true) as Ht.
    { apply existsb_exists. exists m. split; [by apply list_elem_of_In|].
      unfold JS.strict_eq. by apply bool_decide_eq_true_2. }
    rewrite Ht in Hex. discriminate Hex.
  - apply NoDup_singleton.
Qed.

(** Every inbound handler either leaves the list alone or passes the
    message through [append_if_new]. *)
Lemma on_inbound_cases13 p ev prev :
  (Part013.on_inbound p ev prev).1 = prev
  ∨ (Part013.on_inbound p ev prev).1
    = Part013.append_if_new (Part013.payload ev) prev.
Proof.
  destruct ev as [m|m|m]; simpl;
    unfold Part013.handleNewMessage, Part013.handleGroupMessage,
      Part013.handleReceiveMessage;
    match goal with |- context [if ?c then (_, _) else (_, _)] =>
      destruct c end; auto.
Qed.

Lemma handleNewMessage_cases14 p m prev :
  (Part014.handleNewMessage p m prev).1 = prev
  ∨ (Part014.handleNewMessage p m prev).1 = Part013.append_if_new m prev.
Proof.
  unfold Part014.handleNewMessage.
  match goal with |- context [if ?c then (_, _) else (_, _)] =>
    destruct c end; auto.
Qed.

(** C10.  An inbound message event whose id is already in the
    conversation leaves the list unchanged, for each of the three
    listeners of the socket variant and for the listener of the REST
    variant; so a conversation without repeated ids stays without
    repeated ids through any sequence of inbound message events. *)
Theorem conversation_ids_unique (p : Props) :
  (∀ ev prev, id (Part013.payload ev) ∈ id <$> prev →
              (Part013.on_inbound p ev prev).1 = prev)
  ∧ (∀ m prev, id m ∈ id <$> prev →
               (Part014.handleNewMessage p m prev).1 = prev)
  ∧ (∀ evs prev, NoDup (id <$> prev) →
                 NoDup (id <$> Part013.conversation p evs prev))
  ∧ (∀ ms prev, NoDup (id <$> prev) →
                NoDup (id <$> Part014.conversation p ms prev)).
Proof.
  repeat split.
  - intros ev prev Hin.
    destruct (on_inbound_cases13 p ev prev) as [->| ->]; [done|].
    by apply append_if_new_known.
  - intros m prev Hin.
    destruct (handleNewMessage_cases14 p m prev) as [->| ->]; [done|].
    by apply append_if_new_known.
  - intros evs. unfold Part013.conversation.
    induction evs as [|ev evs IH]; intros prev Hnd; [done|]. simpl.
    apply IH. destruct (on_inbound_cases13 p ev prev) as [->| ->]; [done|].
    by apply append_if_new_NoDup.
  - intros ms. unfold Part014.conversation.
    induction ms as [|m ms IH]; intros prev Hnd; [done|]. simpl.
    apply IH. destruct (handleNewMessage_cases14 p m prev) as [->| ->]; [done|].
    by apply append_if_new_NoDup.
Qed.

Lemma conversation_ids_unique_witness :
  Part013.conversation Scenario.alice_with_bob
    [Part013.new_message Scenario.m1; Part013.receive_message Scenario.m1;
     Part013.new_message Scenario.m2; Part013.receive_message Scenario.m2] []
  = [Scenario.m1; Scenario.m2]
  ∧ NoDup (id <$> Part013.conversation Scenario.alice_with_bob
             [Part013.new_message Scenario.m1;
              Part013.receive_message Scenario.m1;
              Part013.new_message Scenario.m2;
              Part013.receive_message Scenario.m2] [])
  ∧ (Part013.on_inbound Scenario.alice_with_bob
       (Part013.receive_message Scenario.m1) [Scenario.m1]).1 = [Scenario.m1].
Proof.
  destruct (conversation_ids_unique Scenario.alice_with_bob)
    as (Hsame & _ & Huniq & _).
  split; [reflexivity|]. split.
  - apply Huniq. simpl. apply NoDup_nil_2.
  - apply Hsame. simpl. apply list_elem_of_here.
Defined.

End Conversation.

(** ** Where a read flag comes from *)

Section ReadFlags.
Import Chat.

Lemma find_snoc (f : Message → bool) (l : list Message) (m : Message) :
  List.find f (l ++ [m])
  = match List.find f l with
    | Some x => Some x
    | None => if f m then Some m else None
    end.
Proof. induction l as [|x l IH]; simpl; [done|]. by destruct (f x). Qed.

(** A status found after an append was there before, or is the
    appended message's. *)
Lemma status_of_append_if_new m prev mid rid st :
  status_of mid rid (Part013.append_if_new m prev) = Some st →
  status_of mid rid prev = Some st
  ∨ (id m = mid ∧ delivery_status m ≫= JS.get rid = Some st).
Proof.
  unfold Part013.append_if_new. destruct (JS.some _ prev); [by left|].
  unfold status_of. rewrite find_snoc.
  destruct (List.find _ prev) as [x|]; [by left|].
  destruct (bool_decide (id m = mid)) eqn:Hid; [|done].
  apply bool_decide_eq_true_1 in Hid. intros H. right. by split.
Qed.

(** A status found after a wholesale update was there before, or is the
    replacing message's. *)
Lemma status_of_handleMessageUpdate m prev mid rid st :
  status_of mid rid (Part013Ext.handleMessageUpdate m prev) = Some st →
  status_of mid rid prev = Some st
  ∨ (id m = mid ∧ delivery_status m ≫= JS.get rid = Some st).
Proof.
  unfold Part013Ext.handleMessageUpdate. rewrite status_of_fmap.
  - unfold status_of. destruct (List.find _ prev) as [x|] eqn:Hfind; [|done].
    simpl. apply find_some in Hfind as [_ Hx].
    apply bool_decide_eq_true_1 in Hx.
    destruct (JS.strict_eq (id x) (id m)) eqn:Hid; [|by left].
    apply bool_decide_eq_true_1 in Hid. intros H. right. split; [congruence|done].
  - intros x. destruct (JS.strict_eq (id x) (id m)) eqn:Hid; [|done].
    by apply bool_decide_eq_true_1 in Hid.
Qed.

Lemma status_of_handleMessageEdited data prev mid rid :
  status_of mid rid (Part013Ext.handleMessageEdited data prev)
  = status_of mid rid prev.
Proof.
  unfold Part013Ext.handleMessageEdited. rewrite status_of_fmap.
  - unfold status_of. destruct (List.find _ prev) as [m|]; [|done]. simpl.
    by destruct (JS.strict_eq _ _).
  - intros x. by destruct (JS.strict_eq _ _).
Qed.

Lemma status_of_handleMessageDelete data prev mid rid :
  status_of mid rid (Part013.handleMessageDelete data prev)
  = status_of mid rid prev.
Proof.
  unfold Part013.handleMessageDelete. rewrite status_of_fmap.
  - unfold status_of. destruct (List.find _ prev) as [m|]; [|done]. simpl.
    by destruct (JS.strict_eq _ _).
  - intros x. by destruct (JS.strict_eq _ _).
Qed.

(** The read acknowledgment acts only when the chat is one-to-one and
    the event names the open chat's peer as the receiver. *)
Lemma on_messages_read_guard p data prev :
  isGroup p = true
  ∨ JS.truthy_string (messages_read.receiver_id data) = false
  ∨ messages_read.receiver_id data ≠ receiverId p →
  (Part013.on_messages_read p data prev).1 = prev.
Proof.
  unfold Part013.on_messages_read. intros [->|[->|Hne]].
  - done.
  - by rewrite andb_false_r.
  - unfold JS.strict_eq. rewrite (bool_decide_eq_false_2 _ Hne).
    by rewrite andb_false_r.
Qed.

(** A read flag found after the read acknowledgment was there before,
    or is the one the acknowledgment wrote: under the receiver the event
    names, who is the open chat's peer, in a message the user sent to
    that peer. *)
Lemma on_messages_read_origin p data prev mid rid st :
  status_of mid rid (Part013.on_messages_read p data prev).1 = Some st →
  status_of mid rid prev = Some st
  ∨ (∃ m, isGroup p = false ∧ rid ≠ ""
          ∧ messages_read.receiver_id data = Some rid
          ∧ receiverId p = Some rid
          ∧ List.find (λ x, bool_decide (id x = mid)) prev = Some m
          ∧ userId p = Some (sender_id m)
          ∧ receiver_id m = Some rid
          ∧ st = mkStatus (Some true) (Some true)
                          (messages_read.timestamp data) None).
Proof.
  unfold Part013.on_messages_read.
  destruct (negb (isGroup p) && _ && _) eqn:Hguard; cbn [fst]; [|by left].
  apply andb_prop in Hguard as [Hguard Hsame].
  apply andb_prop in Hguard as [Hgroup Htruthy].
  apply negb_true_iff in Hgroup. apply bool_decide_eq_true_1 in Hsame.
  destruct (messages_read.receiver_id data) as [r|] eqn:Hr; [|done].
  simpl in Htruthy. apply negb_true_iff, bool_decide_eq_false_1 in Htruthy.
  rewrite status_of_fmap; [|intros x; by destruct (_ && _)].
  unfold status_of.
  destruct (List.find _ prev) as [m|] eqn:Hfind; [|done]. simpl.
  destruct (JS.strict_eq (Some (sender_id m)) (userId p)
            && JS.strict_eq (receiver_id m) (receiverId p)) eqn:Hown;
    [|by left].
  apply andb_prop in Hown as [Hsender Hto].
  apply bool_decide_eq_true_1 in Hsender, Hto.
  rewrite delivery_status_with. simpl. rewrite <- Hsame. simpl.
  destruct (decide (r = rid)) as [->|Hne].
  - rewrite get_assign_eq. intros [= <-]. right. exists m.
    repeat split; try done. by rewrite Hto.
  - rewrite get_assign_ne; [|done]. intros H. left.
    by destruct (delivery_status m).
Qed.

(** Every read flag of the conversation after one socket event was
    there before the event, or was written by a read acknowledgment that
    names the key's recipient, or came with a message the server
    sent. *)
Lemma read_flag_origin p ev prev mid rid st :
  status_of mid rid (Part013Ext.on_event p ev prev).1 = Some st →
  read st = Some true →
  status_of mid rid prev = Some st
  ∨ (∃ d m, ev = Part013Ext.messages_read d
            ∧ isGroup p = false ∧ rid ≠ ""
            ∧ messages_read.receiver_id d = Some rid
            ∧ receiverId p = Some rid
            ∧ List.find (λ x, bool_decide (id x = mid)) prev = Some m
            ∧ userId p = Some (sender_id m)
            ∧ receiver_id m = Some rid
            ∧ st = mkStatus (Some true) (Some true)
                            (messages_read.timestamp d) None)
  ∨ (∃ m, Part013Ext.carried ev = Some m ∧ id m = mid
          ∧ delivery_status m ≫= JS.get rid = Some st).
Proof.
  intros Hst Hread. destruct ev as [iv|u|d|d|d| |d]; simpl in Hst.
  - destruct (on_inbound_cases13 p iv prev) as [Heq|Heq]; rewrite Heq in Hst.
    + by left.
    + apply status_of_append_if_new in Hst as [H|[Hid H]]; [by left|].
      right. right. by exists (Part013.payload iv).
  - apply status_of_handleMessageUpdate in Hst as [H|[Hid H]]; [by left|].
    right. right. by exists u.
  - rewrite status_of_handleMessageEdited in Hst. by left.
  - rewrite status_of_handleMessageDelete in Hst. by left.
  - apply on_messages_read_origin in Hst as [H|(m & H)]; [by left|].
    right. left. by exists d, m.
  - by left.
  - left. by apply (delivered_never_sets_read d).
Qed.

(** C6, as the handler has it.  When a recipient-originated mark-read
    event reaches the open one-to-one chat, each message the user sent
    to that recipient gets the recipient's entry replaced by one in
    which the delivered flag is set together with the read flag,
    whatever was recorded before; the entry carries the event's
    timestamp once, as [read_at], and no delivered time.  Read is set
    only by such an event: a [messages_read] event that names no
    receiver, or another receiver than the open chat's peer, or that
    arrives in a group chat, leaves the conversation as it is; and after
    any one socket event, a read flag under a (message, recipient) key
    was there before the event, or was written by a [messages_read]
    event naming that recipient on a message the user sent to that
    recipient, or belongs to a message that came from the server with
    the event. *)
Theorem read_ack_sets_delivered_with_read (p : Props)
    (data : messages_read.data) (prev : list Message) :
  (∀ m r,
     isGroup p = false →
     r ≠ "" →
     receiverId p = Some r →
     messages_read.receiver_id data = Some r →
     List.find (λ x, bool_decide (id x = id m)) prev = Some m →
     userId p = Some (sender_id m) →
     receiver_id m = Some r →
     status_of (id m) r (Part013.on_messages_read p data prev).1
     = Some (mkStatus (Some true) (Some true) (messages_read.timestamp data) None))
  ∧ (isGroup p = true
     ∨ JS.truthy_string (messages_read.receiver_id data) = false
     ∨ messages_read.receiver_id data ≠ receiverId p →
     (Part013.on_messages_read p data prev).1 = prev)
  ∧ (∀ ev mid rid st,
       status_of mid rid (Part013Ext.on_event p ev prev).1 = Some st →
       read st = Some true →
       status_of mid rid prev = Some st
       ∨ (∃ d m, ev = Part013Ext.messages_read d
                 ∧ isGroup p = false ∧ rid ≠ ""
                 ∧ messages_read.receiver_id d = Some rid
                 ∧ receiverId p = Some rid
                 ∧ List.find (λ x, bool_decide (id x = mid)) prev = Some m
                 ∧ userId p = Some (sender_id m)
                 ∧ receiver_id m = Some rid
                 ∧ st = mkStatus (Some true) (Some true)
                                 (messages_read.timestamp d) None)
       ∨ (∃ m, Part013Ext.carried ev = Some m ∧ id m = mid
               ∧ delivery_status m ≫= JS.get rid = Some st)).
Proof.
  split; [|split].
  - intros m r Hgroup Hr Hrecv Hdata Hfind Huser Hto.
    unfold Part013.on_messages_read.
    rewrite Hgroup, Hdata, Hrecv. unfold JS.truthy_string, JS.strict_eq.
    rewrite bool_decide_eq_false_2; [|done].
    rewrite bool_decide_eq_true_2; [|done]. cbn [negb andb fst].
    rewrite status_of_fmap.
    + rewrite Hfind. cbn [mbind option_bind].
      rewrite Huser, Hto. rewrite !bool_decide_eq_true_2; [|done..].
      cbn [andb]. rewrite delivery_status_with. cbn [mbind option_bind].
      apply get_assign_eq.
    + intros x. by destruct (_ && _).
  - apply on_messages_read_guard.
  - intros ev mid rid st. apply read_flag_origin.
Qed.

Lemma read_ack_sets_delivered_with_read_witness :
  status_of "m1" "bob"
    (Part013.on_messages_read Scenario.alice_with_bob
       Scenario.bob_read_at_t1 [Scenario.m1]).1
  = Some (mkStatus (Some true) (Some true) (Some "t1") None)
  ∧ (Part013.on_messages_read Scenario.alice_with_bob
       (messages_read.mk (Some "carol") (Some "t1")) [Scenario.m1]).1
    = [Scenario.m1].
Proof.
  split.
  - apply (proj1 (read_ack_sets_delivered_with_read Scenario.alice_with_bob
                    Scenario.bob_read_at_t1 [Scenario.m1]) Scenario.m1 "bob");
      [reflexivity | discriminate | reflexivity..].
  - apply (proj1 (proj2 (read_ack_sets_delivered_with_read
                           Scenario.alice_with_bob
                           (messages_read.mk (Some "carol") (Some "t1"))
                           [Scenario.m1]))).
    right. right. discriminate.
Defined.




End ReadFlags.

(** ** Presence *)

Section PresenceExactness.
Import Presence.

(** A user's count is positive exactly when the registry holds a
    connection of that user. *)
Lemma connection_count_pos (e : Engine) (u : string) :
  0 < connection_count e u
  ↔ ∃ c k, registry e !! c = Some k ∧ userId k = u.
Proof.
  unfold connection_count, activeConnections. rewrite size_dom. split.
  - intros Hpos.
    assert (size (filter (λ kc : nat * Connection, userId kc.2 = u) (registry e))
            ≠ 0) as Hne by lia.
    apply map_size_ne_0_lookup in Hne as [c [k Hck]].
    apply map_lookup_filter_Some in Hck as [Hc Hu]. by exists c, k.
  - intros (c & k & Hc & Hu).
    assert (size (filter (λ kc : nat * Connection, userId kc.2 = u) (registry e))
            ≠ 0) as Hne; [|lia].
    apply map_size_ne_0_lookup. exists c, k.
    by apply map_lookup_filter_Some.
Qed.

Lemma connection_count_zero (e : Engine) (u : string) :
  connection_count e u = 0
  ↔ ¬ ∃ c k, registry e !! c = Some k ∧ userId k = u.
Proof. rewrite <- connection_count_pos. lia. Qed.

Lemma online_flag_insert (u u' : string) (r : PresenceRecord) reg rs :
  online_flag (mk reg (<[u := r]> rs)) u'
  = if decide (u = u') then online r else online_flag (mk reg rs) u'.
Proof.
  unfold online_flag. simpl. destruct (decide (u = u')) as [->|Hne].
  - by rewrite lookup_insert_eq.
  - by rewrite lookup_insert_ne.
Qed.

Lemma register_tracks now c u o e :
  flag_tracks_registry e → flag_tracks_registry (register now c u o e).
Proof.
  intros Hinv. unfold register.
  destruct (registry e !! c) as [k0|] eqn:Hc; [done|].
  intros u'. 
  assert ((∃ c' k, <[c := mkConnection u o]> (registry e) !! c' = Some k
                   ∧ userId k = u')
          ↔ u = u' ∨ ∃ c' k, registry e !! c' = Some k ∧ userId k = u') as Hreg.
  { split.
    - intros (c' & k & Hk & Hu). destruct (decide (c = c')) as [<-|Hne].
      + rewrite lookup_insert_eq in Hk. injection Hk as <-. by left.
      + rewrite lookup_insert_ne in Hk; [|done]. right. by exists c', k.
    - intros [<-|(c' & k & Hk & Hu)].
      + exists c, (mkConnection u o). by rewrite lookup_insert_eq.
      + exists c', k. split; [|done]. rewrite lookup_insert_ne; [done|].
        intros <-. congruence. }
  simpl registry. rewrite Hreg.
  destruct (bool_decide (connection_count e u = 0)) eqn:Hfirst.
  - unfold onTransition. 
    change (online_flag (mk ?reg (<[?a := ?r]> ?rs)) u')
      with (online_flag (mk reg (<[a := r]> rs)) u').
    rewrite online_flag_insert. destruct (decide (u = u')) as [->|Hne].
    + simpl. split; [by left|done].
    + split.
      * intros H. right. apply Hinv. exact H.
      * intros [H|H]; [done|]. apply (Hinv u') in H. exact H.
  - apply bool_decide_eq_false_1 in Hfirst.
    assert (0 < connection_count e u) as Hpos by lia.
    apply connection_count_pos in Hpos. apply (Hinv u) in Hpos.
    split.
    + intros H. right. apply Hinv. exact H.
    + intros [<-|H]; [exact Hpos|]. apply (Hinv u') in H. exact H.
Qed.

Lemma deregister_tracks now c e :
  flag_tracks_registry e → flag_tracks_registry (deregister now c e).
Proof.
  intros Hinv. unfold deregister.
  destruct (registry e !! c) as [k0|] eqn:Hc; [|done].
  set (left := mk (delete c (registry e)) (records e)).
  assert (∀ u', u' ≠ userId k0 →
            ((∃ c' k, delete c (registry e) !! c' = Some k ∧ userId k = u')
             ↔ ∃ c' k, registry e !! c' = Some k ∧ userId k = u')) as Hother.
  { intros u' Hne. split.
    - intros (c' & k & Hk & Hu). apply lookup_delete_Some in Hk as [_ Hk].
      by exists c', k.
    - intros (c' & k & Hk & Hu). exists c', k. split; [|done].
      apply lookup_delete_Some. split; [|done]. intros <-.
      rewrite Hc in Hk. injection Hk as <-. by apply Hne. }
  destruct (bool_decide (connection_count left (userId k0) = 0)) eqn:Hlast.
  - apply bool_decide_eq_true_1 in Hlast.
    apply connection_count_zero in Hlast.
    intros u'. unfold onTransition. simpl registry.
    rewrite online_flag_insert. destruct (decide (userId k0 = u')) as [<-|Hne].
    + simpl. split; [done|]. intros H. by destruct Hlast.
    + rewrite Hother; [|done]. apply Hinv.
  - apply bool_decide_eq_false_1 in Hlast.
    assert (0 < connection_count left (userId k0)) as Hpos by lia.
    apply connection_count_pos in Hpos.
    intros u'. destruct (decide (u' = userId k0)) as [->|Hne].
    + split; [intros _; exact Hpos|]. intros _.
      apply (Hinv (userId k0)). by exists c, k0.
    + subst left. simpl registry. rewrite Hother; [|done]. apply Hinv.
Qed.

Lemma run_snoc (ops : list Op) (op : Op) :
  run (ops ++ [op]) = step (run ops) op.
Proof. unfold run. by rewrite foldl_app. Qed.

Lemma run_tracks (ops : list Op) : flag_tracks_registry (run ops).
Proof.
  induction ops as [|op ops IH] using rev_ind.
  - intros u. unfold run, online_flag. simpl. rewrite lookup_empty. split; [done|].
    intros (c & k & Hk & _). by rewrite lookup_empty in Hk.
  - rewrite run_snoc. destruct op as [now c u o|now c]; simpl.
    + by apply register_tracks.
    + by apply deregister_tracks.
Qed.

(** C3.  After any sequence of registrations and deregistrations, for
    every user, the online flag of the user's presence record is true if
    and only if the user's active-connection count is greater than zero.
    So the flag is never set while the count is zero, and when a user
    with two live connections loses one of them the flag stays set: the
    count is still positive. *)
Theorem presence_exact (ops : list Op) (u : string) :
  (online_flag (run ops) u = true ↔ 0 < connection_count (run ops) u)
  ∧ (connection_count (run ops) u = 0 → online_flag (run ops) u = false)
  ∧ (∀ now c1 c2 k1 k2,
       c1 ≠ c2 →
       registry (run ops) !! c1 = Some k1 → userId k1 = u →
       registry (run ops) !! c2 = Some k2 → userId k2 = u →
       online_flag (run (ops ++ [Deregister now c1])) u = true
       ∧ 0 < connection_count (run (ops ++ [Deregister now c1])) u).
Proof.
  assert (∀ ops', online_flag (run ops') u = true
                  ↔ 0 < connection_count (run ops') u) as Hexact.
  { intros ops'. rewrite connection_count_pos. apply run_tracks. }
  split; [apply Hexact|]. split.
  - intros Hzero. destruct (online_flag (run ops) u) eqn:Hflag; [|done].
    apply Hexact in Hflag. lia.
  - intros now c1 c2 k1 k2 Hne H1 Hu1 H2 Hu2.
    assert (0 < connection_count (run (ops ++ [Deregister now c1])) u) as Hpos.
    { apply connection_count_pos. exists c2, k2. split; [|done].
      rewrite run_snoc. simpl. unfold deregister. rewrite H1.
      assert (delete c1 (registry (run ops)) !! c2 = Some k2) as Hleft.
      { apply lookup_delete_Some. by split. }
      by destruct (bool_decide _). }
    split; [by apply Hexact|exact Hpos].
Qed.

Lemma presence_exact_witness :
  online_flag (run (Scenario.alice_on_two_devices ++ [Deregister 30 1])) "alice"
  = true
  ∧ 0 < connection_count
          (run (Scenario.alice_on_two_devices ++ [Deregister 30 1])) "alice".
Proof.
  apply (proj2 (proj2 (presence_exact Scenario.alice_on_two_devices "alice"))
           30%Z 1 2 (mkConnection "alice" "acme") (mkConnection "alice" "acme")).
  - discriminate.
  - by vm_compute.
  - reflexivity.
  - by vm_compute.
  - reflexivity.
Defined.

End PresenceExactness.

(** ** Organization isolation *)

Section Isolation.
Import Router.

(** C2.  Whatever the scope and the directory, every user
    [resolveRecipients] returns is placed by the directory in the
    scope's organization; and a scope with a recipient outside that
    organization is rejected with a validation error and the empty set. *)
Theorem recipients_stay_in_organization (dir : Directory) (s : Scope) :
  (∀ u, u ∈ (resolveRecipients dir s).1 →
        org_of dir !! u = Some (scope_org s))
  ∧ (∀ us u, resolved dir s = Some us → u ∈ us →
             org_of dir !! u ≠ Some (scope_org s) →
             resolveRecipients dir s = (∅, Some ValidationError)).
Proof.
  unfold resolveRecipients. split.
  - intros u. destruct (resolved dir s) as [us|]; simpl; [|set_solver].
    destruct (forallb _ us) eqn:Hall; simpl; [|set_solver].
    rewrite elem_of_list_to_set. intros Hu.
    rewrite forallb_forall in Hall. apply list_elem_of_In in Hu.
    specialize (Hall u Hu). by apply bool_decide_eq_true_1 in Hall.
  - intros us u -> Hu Hout.
    destruct (forallb _ us) eqn:Hall; [|done].
    rewrite forallb_forall in Hall. apply list_elem_of_In in Hu.
    specialize (Hall u Hu). by apply bool_decide_eq_true_1 in Hall.
Qed.

Lemma recipients_stay_in_organization_witness :
  resolveRecipients Scenario.directory (Group "acme" "X")
  = (∅, Some ValidationError)
  ∧ org_of Scenario.directory !! "bob" = Some "acme".
Proof.
  split.
  - apply (proj2 (recipients_stay_in_organization Scenario.directory
                    (Group "acme" "X")) ["alice"; "mallory"] "mallory").
    + reflexivity.
    + apply list_elem_of_further, list_elem_of_here.
    + by vm_compute.
  - apply (proj1 (recipients_stay_in_organization Scenario.directory
                    (Group "acme" "G")) "bob").
    simpl. set_solver.
Defined.

End Isolation.

(** ** The typing indicator *)

Section TypingIndicator.
Import Chat.

Lemma run_callbacks (s0 : Indicator.t) (fired : list (Timers.timer Indicator.Callback)) :
  foldl (λ s x, Indicator.run_callback (Timers.callback x) s) s0 fired
  = match fired with
    | [] => s0
    | _ :: _ => Indicator.mk false (Indicator.typingTimeout s0) (Indicator.timers s0)
    end.
Proof.
  revert s0. induction fired as [|x fired IH]; intros s0; [done|].
  simpl. rewrite IH. destruct (Timers.callback x). by destruct fired.
Qed.

Lemma run_due_ref now st :
  Indicator.typingTimeout (Indicator.run_due now st) = Indicator.typingTimeout st.
Proof.
  unfold Indicator.run_due. simpl. rewrite run_callbacks.
  by destruct (filter _ _).
Qed.

Lemma run_due_timers now st :
  Indicator.timers (Indicator.run_due now st)
  = Timers.mkTable (filter (λ x, ¬ Timers.is_due now x)
                           (Timers.pending (Indicator.timers st)))
                   (Timers.next_handle (Indicator.timers st)).
Proof.
  unfold Indicator.run_due. simpl. rewrite run_callbacks.
  by destruct (filter _ _).
Qed.

Lemma run_due_armed_only now st :
  Indicator.armed_only st → Indicator.armed_only (Indicator.run_due now st).
Proof.
  unfold Indicator.armed_only. rewrite run_due_ref, run_due_timers. simpl.
  intros H. apply Forall_forall. intros x Hx.
  apply list_elem_of_filter in Hx as [_ Hx].
  rewrite Forall_forall in H. by apply H.
Qed.

Lemma armed_only_cleared st :
  Indicator.armed_only st →
  Timers.pending
    (Timers.clearTimeout (Indicator.typingTimeout st) (Indicator.timers st)) = [].
Proof.
  unfold Indicator.armed_only. intros H.
  destruct (Indicator.typingTimeout st) as [h|] eqn:Href; simpl.
  - induction H as [|x l Hx _ IH]; [done|].
    rewrite filter_cons. injection Hx as ->.
    destruct (decide (Timers.handle x ≠ Timers.handle x)); [done|]. apply IH.
  - by destruct H.
Qed.

(** What clear-then-set leaves behind: the indicator on and exactly one
    timer, due three seconds after the signal. *)
Lemma show_and_rearm_armed now st :
  Indicator.armed_only st →
  Part014.show_and_rearm now st
  = Indicator.mk true (Some (Timers.next_handle (Indicator.timers st)))
      (Timers.mkTable
         [Timers.mkTimer (Timers.next_handle (Indicator.timers st))
                         (now + 3000) Indicator.HideTyping]
         (S (Timers.next_handle (Indicator.timers st)))).
Proof.
  intros H. unfold Part014.show_and_rearm, Timers.setTimeout.
  rewrite (armed_only_cleared st H).
  by destruct (Indicator.typingTimeout st).
Qed.

Lemma show_and_rearm_armed_only now st :
  Indicator.armed_only st → Indicator.armed_only (Part014.show_and_rearm now st).
Proof.
  intros H. rewrite show_and_rearm_armed; [|done].
  unfold Indicator.armed_only. simpl. by constructor.
Qed.

Lemma rearm_shows_for_three_seconds st L now :
  Indicator.armed_only st →
  Indicator.shown now (Part014.show_and_rearm L st)
  = bool_decide (now < L + 3000)%Z.
Proof.
  intros H. rewrite show_and_rearm_armed; [|done].
  unfold Indicator.shown, Indicator.run_due, Timers.take_due. simpl.
  rewrite !filter_cons, !filter_nil. unfold Timers.is_due. simpl.
  destruct (decide (L + 3000 ≤ now)%Z) as [Hdue|Hnot].
  - rewrite decide_False; [|by intros Hc; apply Hc]. simpl.
    by rewrite bool_decide_eq_false_2; [|lia].
  - rewrite decide_True; [|done]. simpl.
    by rewrite bool_decide_eq_true_2; [|lia].
Qed.

Lemma handleTyping14_armed_only p ev now st :
  Indicator.armed_only st → Indicator.armed_only (Part014.handleTyping p ev now st).
Proof.
  intros H. unfold Part014.handleTyping.
  destruct (isGroup p);
    match goal with |- context [if ?c then _ else _] => destruct c end;
    auto using show_and_rearm_armed_only.
Qed.

Lemma run14_armed_only p evs :
  Indicator.armed_only (Indicator.run (Part014.handleTyping p) evs).
Proof.
  unfold Indicator.run.
  assert (Indicator.armed_only Indicator.initial) as H0 by constructor.
  revert H0. generalize Indicator.initial.
  induction evs as [|[t ev] evs IH]; intros st Hst; [done|]. simpl.
  apply IH. unfold Indicator.deliver. simpl.
  by apply handleTyping14_armed_only, run_due_armed_only.
Qed.

(** The scoped handler resets: after any run of typing events whose
    last one, at [L], is for the open group chat and from another user,
    the indicator is on screen exactly until three seconds after [L]. *)
Lemma scoped_group_typing_expiry p evs ev L now :
  isGroup p = true →
  TypingEvent.is_group ev = true →
  TypingEvent.group_chat_id ev = Some (chatId p) →
  Some (TypingEvent.sender_id ev) ≠ userId p →
  Indicator.shown now
    (Indicator.run (Part014.handleTyping p) (evs ++ [(L, ev)]))
  = bool_decide (now < L + 3000)%Z.
Proof.
  intros Hp Hg Hchat Hother.
  pose proof (run14_armed_only p evs) as Harm. revert Harm.
  unfold Indicator.run. rewrite foldl_app.
  generalize (foldl (Indicator.deliver (Part014.handleTyping p))
                    Indicator.initial evs).
  intros st Harm. simpl. unfold Indicator.deliver. simpl.
  unfold Part014.handleTyping.
  rewrite Hp, Hg, Hchat. unfold JS.strict_eq.
  rewrite bool_decide_eq_true_2; [|done].
  rewrite bool_decide_eq_false_2; [|done]. simpl.
  by apply rearm_shows_for_three_seconds, run_due_armed_only.
Qed.

(** The same for the one-to-one chat. *)
Lemma scoped_personal_typing_expiry p evs ev L now :
  isGroup p = false →
  TypingEvent.is_group ev = false →
  Some (TypingEvent.sender_id ev) = receiverId p →
  Some (TypingEvent.receiver_id ev) = userId p →
  Indicator.shown now
    (Indicator.run (Part014.handleTyping p) (evs ++ [(L, ev)]))
  = bool_decide (now < L + 3000)%Z.
Proof.
  intros Hp Hg Hfrom Hto.
  pose proof (run14_armed_only p evs) as Harm. revert Harm.
  unfold Indicator.run. rewrite foldl_app.
  generalize (foldl (Indicator.deliver (Part014.handleTyping p))
                    Indicator.initial evs).
  intros st Harm. simpl. unfold Indicator.deliver. simpl.
  unfold Part014.handleTyping.
  rewrite Hp, Hg. unfold JS.strict_eq.
  rewrite (bool_decide_eq_true_2 _ Hfrom), (bool_decide_eq_true_2 _ Hto).
  simpl.
  by apply rearm_shows_for_three_seconds, run_due_armed_only.
Qed.

(** The ['typing'] listener of the socket variant, next to the
    ['group_typing'] one in the same component, clears before it sets
    as well. *)
Lemma handleTyping13_rearms now st :
  Part013.handleTyping () now st = Part014.show_and_rearm now st.
Proof. reflexivity. Qed.

(** C4, at the failing input.  Bob's typing signals reach Alice's open
    group chat at 0 ms and at 2000 ms.  The ['group_typing'] listener of
    the socket variant sets a second timer next to the first: the first
    one hides the indicator at 3000 ms, two seconds before "three
    seconds after the most recent signal".  The scoped listener of the
    REST variant, fed the same two signals, clears the first timer and
    keeps the indicator until 5000 ms. *)
Theorem group_typing_timers_stack :
  let stacked :=
    Indicator.run (Part013.handleGroupTyping Scenario.alice_in_G)
      [(0%Z, Scenario.bob_types_in_G); (2000%Z, Scenario.bob_types_in_G)] in
  let rearmed :=
    Indicator.run (Part014.handleTyping Scenario.alice_in_G)
      [(0%Z, Scenario.bob_typing_event_in_G);
       (2000%Z, Scenario.bob_typing_event_in_G)] in
  Timers.due <$> Timers.pending (Indicator.timers stacked) = [3000%Z; 5000%Z]
  ∧ Indicator.shown 2999 stacked = true
  ∧ Indicator.shown 3000 stacked = false
  ∧ Indicator.shown 4999 stacked = false
  ∧ Timers.due <$> Timers.pending (Indicator.timers rearmed) = [5000%Z]
  ∧ Indicator.shown 3000 rearmed = true
  ∧ Indicator.shown 4999 rearmed = true
  ∧ Indicator.shown 5000 rearmed = false.
Proof. by vm_compute. Qed.

End TypingIndicator.

(** ** The composer's typing signals *)

Section TypingSignals.
Import Chat.

Lemma spaced_snoc gap pre t :
  Composer.spaced gap pre = true →
  Forall (λ t', (t' + gap ≤ t)%Z) pre →
  Composer.spaced gap (pre ++ [t]) = true.
Proof.
  induction pre as [|t1 pre IH]; [done|]. intros Hsp Hall.
  apply Forall_cons in Hall as [H1 Hall].
  destruct pre as [|t2 pre].
  - simpl. rewrite bool_decide_eq_true_2; [done|lia].
  - change (Composer.spaced gap (t1 :: t2 :: pre))
      with (bool_decide (gap ≤ t2 - t1)%Z && Composer.spaced gap (t2 :: pre))
      in Hsp.
    apply andb_prop in Hsp as [Hgap Hsp].
    change (Composer.spaced gap ((t1 :: t2 :: pre) ++ [t]))
      with (bool_decide (gap ≤ t2 - t1)%Z
            && Composer.spaced gap ((t2 :: pre) ++ [t])).
    rewrite Hgap. simpl andb. by apply IH.
Qed.

Lemma paced_cleared st sent_at :
  Composer.paced st sent_at →
  Timers.pending
    (Timers.clearTimeout (Composer.emitTypingTimeoutRef st) (Composer.timers st))
  = [].
Proof.
  intros (_ & _ & H).
  destruct (Composer.emitTypingTimeoutRef st) as [h|] eqn:Href; simpl.
  - induction H as [|x l [Hx _] _ IH]; [done|].
    rewrite filter_cons. injection Hx as ->.
    destruct (decide (Timers.handle x ≠ Timers.handle x)); [done|]. apply IH.
  - destruct H as [|x l [Hx _] _]; [done|discriminate Hx].
Qed.

Lemma paced_emit st sent_at value ref tb now :
  Composer.paced st sent_at →
  (Composer.lastTypingEmitRef st + 1000 ≤ now)%Z →
  Timers.pending tb = [] →
  Composer.paced (Composer.mk value now ref tb) (sent_at ++ [now]).
Proof.
  intros (Hle & Hsp & _) Hnow Htb. repeat split; simpl.
  - apply Forall_app. split; [|by constructor].
    eapply Forall_impl; [exact Hle|]. simpl. intros t Ht. lia.
  - apply spaced_snoc; [done|].
    eapply Forall_impl; [exact Hle|]. simpl. intros t Ht. lia.
  - rewrite Htb. constructor.
Qed.

Lemma lookup_pending {A} h (tb : Timers.table A) x :
  Timers.lookup h tb = Some x → x ∈ Timers.pending tb ∧ Timers.handle x = h.
Proof.
  unfold Timers.lookup. intros H. apply find_some in H as [Hin Hh].
  split; [by apply list_elem_of_In | by apply bool_decide_eq_true_1 in Hh].
Qed.

(** One turn of the event loop other than a completed send keeps the
    composer paced. *)
Lemma step_paced p connected now i st sent_at :
  i ≠ Composer.Sent →
  Composer.paced st sent_at →
  Composer.paced (Part014.step p connected now i st).1
    (sent_at ++ ((λ e, (now, e)) <$> (Part014.step p connected now i st).2).*1).
Proof.
  intros Hi Hp. destruct i as [value|h|]; [| |done]; simpl.
  - unfold Part014.onChange.
    destruct (connected && bool_decide (0 < String.length value)); simpl.
    + destruct (bool_decide (1000 < now - Composer.lastTypingEmitRef st)%Z)
        eqn:Hlate; simpl.
      * apply bool_decide_eq_true_1 in Hlate.
        apply (paced_emit st); [done|lia|]. by eapply paced_cleared.
      * pose proof (paced_cleared st sent_at Hp) as Hclr.
        destruct Hp as (Hle & Hsp & Hpend).
        destruct (Composer.emitTypingTimeoutRef st) as [h|] eqn:Href; simpl.
        -- rewrite app_nil_r. by repeat split.
        -- simpl in Hclr. rewrite app_nil_r. repeat split; simpl; try done.
           rewrite Hclr. simpl. constructor; [|constructor]. simpl.
           split; [done|lia].
    + rewrite app_nil_r. pose proof (paced_cleared st sent_at Hp) as Hclr.
      destruct Hp as (Hle & Hsp & _). repeat split; simpl; try done.
      rewrite Hclr. constructor.
  - destruct (Timers.lookup h (Composer.timers st)) as [x|] eqn:Hx; simpl;
      [|by rewrite app_nil_r].
    destruct (bool_decide (Timers.due x ≤ now)%Z) eqn:Hdue; simpl;
      [|by rewrite app_nil_r].
    apply bool_decide_eq_true_1 in Hdue.
    apply lookup_pending in Hx as [Hin Hh].
    pose proof Hp as (Hle & Hsp & Hpend).
    rewrite Forall_forall in Hpend. destruct (Hpend x Hin) as [Href Hat].
    pose proof (paced_cleared st sent_at Hp) as Hclr.
    rewrite Href, Hh in Hclr. simpl in Hclr.
    unfold Part014.deferred_emit.
    destruct (Composer.captured_connected (Timers.callback x) && _); simpl.
    + apply (paced_emit st); [done|lia|done].
    + rewrite app_nil_r. repeat split; simpl; try done.
      rewrite Hclr. constructor.
Qed.

Lemma run_paced p connected tr :
  ∀ st sent_at,
    Forall (λ e, e.2 ≠ Composer.Sent) tr →
    Composer.paced st sent_at →
    Composer.paced (Part014.run p connected tr st).1
      (sent_at ++ (Part014.run p connected tr st).2.*1).
Proof.
  induction tr as [|[now i] tr IH]; intros st sent_at Hns Hp; simpl.
  - by rewrite app_nil_r.
  - apply Forall_cons in Hns as [Hi Hns]. simpl in Hi.
    pose proof (step_paced p connected now i st sent_at Hi Hp) as Hstep.
    destruct (Part014.step p connected now i st) as [st' out]. simpl in Hstep.
    specialize (IH st' _ Hns Hstep).
    destruct (Part014.run p connected tr st') as [st'' log]. simpl in *.
    by rewrite fmap_app, app_assoc.
Qed.

(** The debounced composer keeps its typing signals a second apart:
    over any sequence of input changes and timer runs with no send in
    between, successive emits are at least 1000 ms from each other. *)
Lemma debounced_emits_spaced p connected tr :
  Forall (λ e, e.2 ≠ Composer.Sent) tr →
  Composer.spaced 1000
    (Part014.run p connected tr Composer.initial).2.*1 = true.
Proof.
  intros Hns.
  assert (Composer.paced Composer.initial []) as H0.
  { repeat split; constructor. }
  by destruct (run_paced p connected tr Composer.initial [] Hns H0)
    as (_ & Hsp & _).
Qed.

(** And it answers the first keystroke at once. *)
Lemma debounced_first_keystroke_emits p now value :
  (1000 < now)%Z → 0 < String.length value →
  (Part014.onChange p true now value Composer.initial).2
  = [Part014.typing_signal p].
Proof.
  intros Hnow Hlen. unfold Part014.onChange. simpl.
  rewrite bool_decide_eq_true_2; [|done]. simpl.
  by rewrite bool_decide_eq_true_2; [|lia].
Qed.

(** C9, at the failing input.  Alice types "h", "he", "hel" into her
    chat with Bob, 100 ms apart.  The composer of the socket variant
    emits a typing signal on each change, so successive emits are
    100 ms apart and not a second.  The composer of the REST variant,
    given the same keystrokes (and the run of the timer it sets), emits
    at once and then a second later. *)
Theorem keystrokes_emit_unthrottled :
  let keys := [(5000%Z, "h"); (5100%Z, "he"); (5200%Z, "hel")] in
  let per_key := Part013.typing_emits Scenario.alice_with_bob true keys in
  let debounced :=
    (Part014.run Scenario.alice_with_bob true
       [(5000%Z, Composer.Change "h"); (5100%Z, Composer.Change "he");
        (5200%Z, Composer.Change "hel"); (6000%Z, Composer.Fire 1)]
       Composer.initial).2 in
  per_key.*1 = [5000%Z; 5100%Z; 5200%Z]
  ∧ Composer.spaced 1000 per_key.*1 = false
  ∧ debounced.*1 = [5000%Z; 6000%Z]
  ∧ Composer.spaced 1000 debounced.*1 = true.
Proof. by vm_compute. Qed.

End TypingSignals.

(** ** All the listeners of the conversation together *)

Section ConversationEvents.
Import Chat.

Lemma ids_fmap (f : Message → Message) (l : list Message) :
  (∀ m, id (f m) = id m) → id <$> (f <$> l) = id <$> l.
Proof.
  intros Hid. rewrite <- list_fmap_compose. apply list_fmap_ext.
  intros _ m _. apply Hid.
Qed.

Lemma handleMessageUpdate_ids m prev :
  id <$> Part013Ext.handleMessageUpdate m prev = id <$> prev.
Proof.
  apply ids_fmap. intros x. unfold JS.strict_eq.
  destruct (bool_decide (id x = id m)) eqn:H; [|done].
  by apply bool_decide_eq_true_1 in H.
Qed.

Lemma handleMessageEdited_ids data prev :
  id <$> Part013Ext.handleMessageEdited data prev = id <$> prev.
Proof. apply ids_fmap. intros x. by destruct (JS.strict_eq _ _). Qed.

Lemma handleMessageDelete_ids data prev :
  id <$> Part013.handleMessageDelete data prev = id <$> prev.
Proof. apply ids_fmap. intros x. by destruct (JS.strict_eq _ _). Qed.

Lemma on_messages_read_ids p data prev :
  id <$> (Part013.on_messages_read p data prev).1 = id <$> prev.
Proof.
  unfold Part013.on_messages_read.
  destruct (negb (isGroup p) && _ && _); [|done]. cbn [fst].
  apply ids_fmap. intros x. by destruct (_ && _).
Qed.

Lemma on_message_delivered_ids data prev :
  id <$> (Part013.on_message_delivered data prev).1 = id <$> prev.
Proof.
  unfold Part013.on_message_delivered. cbn [fst].
  apply ids_fmap. intros x. by destruct (JS.strict_eq _ _).
Qed.

(** Apart from the inbound message events, no listener changes the
    list of ids; an inbound message event leaves the list or appends
    one message. *)
Lemma on_event_shape13 p ev prev :
  id <$> (Part013Ext.on_event p ev prev).1 = id <$> prev
  ∨ ∃ m, ev = Part013Ext.inbound m
         ∧ (Part013Ext.on_event p ev prev).1
           = Part013.append_if_new (Part013.payload m) prev.
Proof.
  destruct ev as [iv|m|d|d|d| |d]; simpl.
  - destruct (on_inbound_cases13 p iv prev) as [->|H]; [by left|].
    right. by exists iv.
  - left. apply handleMessageUpdate_ids.
  - left. apply handleMessageEdited_ids.
  - left. apply handleMessageDelete_ids.
  - left. apply on_messages_read_ids.
  - by left.
  - left. apply on_message_delivered_ids.
Qed.

Lemma append_if_new_prefix m prev :
  (id <$> prev) `prefix_of` (id <$> Part013.append_if_new m prev).
Proof.
  unfold Part013.append_if_new. destruct (JS.some _ prev); [done|].
  rewrite fmap_app. by apply prefix_app_r.
Qed.

Lemma on_event_shape14 p ev prev :
  id <$> (Part014Ext.on_event p ev prev).1 = id <$> prev
  ∨ ∃ m, (Part014Ext.on_event p ev prev).1 = Part013.append_if_new m prev.
Proof.
  destruct ev as [m|m|d]; simpl.
  - destruct (handleNewMessage_cases14 p m prev) as [->|H]; [by left|].
    right. by exists m.
  - left. apply handleMessageUpdate_ids.
  - left. apply handleMessageDelete_ids.
Qed.

(** Whatever socket events arrive, and in whatever order, no message
    ever leaves the conversation or changes place: the ids the
    conversation had are a prefix of the ids it has afterwards.  And a
    conversation without repeated ids stays without repeated ids, in
    both variants of the component. *)
Theorem listeners_keep_order_and_unique_ids (p : Props) :
  (∀ evs prev,
     (id <$> prev) `prefix_of` (id <$> Part013Ext.conversation p evs prev)
     ∧ (NoDup (id <$> prev) →
        NoDup (id <$> Part013Ext.conversation p evs prev)))
  ∧ (∀ evs prev,
       (id <$> prev) `prefix_of` (id <$> Part014Ext.conversation p evs prev)
       ∧ (NoDup (id <$> prev) →
          NoDup (id <$> Part014Ext.conversation p evs prev))).
Proof.
  split.
  - intros evs. unfold Part013Ext.conversation.
    induction evs as [|ev evs IH]; intros prev; [done|]. simpl.
    destruct (IH (Part013Ext.on_event p ev prev).1) as [Hpre Hnd].
    destruct (on_event_shape13 p ev prev) as [Heq|(m & _ & Heq)].
    + rewrite Heq in Hpre, Hnd. done.
    + rewrite Heq in Hpre, Hnd |- *. split.
      * etrans; [apply (append_if_new_prefix (Part013.payload m))|done].
      * intros H. by apply Hnd, append_if_new_NoDup.
  - intros evs. unfold Part014Ext.conversation.
    induction evs as [|ev evs IH]; intros prev; [done|]. simpl.
    destruct (IH (Part014Ext.on_event p ev prev).1) as [Hpre Hnd].
    destruct (on_event_shape14 p ev prev) as [Heq|(m & Heq)].
    + rewrite Heq in Hpre, Hnd. done.
    + rewrite Heq in Hpre, Hnd |- *. split.
      * etrans; [apply (append_if_new_prefix m)|done].
      * intros H. by apply Hnd, append_if_new_NoDup.
Qed.

Lemma listeners_keep_order_and_unique_ids_witness :
  NoDup (id <$> Part013Ext.conversation Scenario.alice_with_bob
           [Part013Ext.inbound (Part013.new_message Scenario.m2);
            Part013Ext.message_deleted (message_deleted.mk "m1");
            Part013Ext.messages_read Scenario.bob_read_at_t1;
            Part013Ext.inbound (Part013.receive_message Scenario.m2)]
           [Scenario.m1]).
Proof.
  apply (listeners_keep_order_and_unique_ids Scenario.alice_with_bob).
  simpl. apply NoDup_singleton.
Defined.

End ConversationEvents.

(** ** Tombstones, edits and the frame of the acknowledgments *)

Section ListenersInDetail.
Import Chat.

(** One event other than ['message_updated'] keeps a deleted message
    deleted, under its id, at its index. *)
Lemma on_event_keeps_tombstone p ev prev i m :
  Part013Ext.is_update ev = false →
  prev !! i = Some m → deleted m = true →
  ∃ m', (Part013Ext.on_event p ev prev).1 !! i = Some m'
        ∧ deleted m' = true ∧ id m' = id m.
Proof.
  intros Hev Hi Hdel.
  assert (∀ f : Message → Message,
            (∀ x, deleted x = true → deleted (f x) = true ∧ id (f x) = id x) →
            ∃ m', (f <$> prev) !! i = Some m' ∧ deleted m' = true ∧ id m' = id m)
    as Hmap.
  { intros f Hf. exists (f m). rewrite list_lookup_fmap, Hi. simpl.
    destruct (Hf m Hdel). by repeat split. }
  destruct ev as [iv|u|d|d|d| |d]; simpl in *; try discriminate Hev.
  - destruct (on_inbound_cases13 p iv prev) as [->| ->].
    + by exists m.
    + exists m. split; [|done]. unfold Part013.append_if_new.
      destruct (JS.some _ prev); [done|]. by apply lookup_app_l_Some.
  - apply Hmap. intros x Hx. by destruct (JS.strict_eq _ _).
  - apply Hmap. intros x Hx. by destruct (JS.strict_eq _ _).
  - unfold Part013.on_messages_read.
    destruct (negb (isGroup p) && _ && _); cbn [fst]; [|by exists m].
    apply Hmap. intros x Hx. by destruct (_ && _).
  - by exists m.
  - unfold Part013.on_message_delivered. cbn [fst].
    apply Hmap. intros x Hx. by destruct (JS.strict_eq _ _).
Qed.

(** A deleted message stays a tombstone: through any sequence of socket
    events that holds no ['message_updated'] (the one listener that
    replaces a message wholesale), the message keeps its index, its id
    and its deleted flag, and the bubble keeps rendering the deleted
    placeholder. *)
Theorem tombstone_persists (p : Props) (evs : list Part013Ext.Event)
    (prev : list Message) (i : nat) (m : Message) :
  forallb (λ ev, negb (Part013Ext.is_update ev)) evs = true →
  prev !! i = Some m →
  deleted m = true →
  ∃ m', Part013Ext.conversation p evs prev !! i = Some m'
        ∧ deleted m' = true
        ∧ id m' = id m
        ∧ ∀ isOwn, Part013.MessageBubble m' isOwn = Bubble.DeletedPlaceholder.
Proof.
  unfold Part013Ext.conversation. revert prev m.
  induction evs as [|ev evs IH]; intros prev m Hevs Hi Hdel; simpl in *.
  - exists m. repeat split; try done.
    intros isOwn. unfold Part013.MessageBubble. by rewrite Hdel.
  - apply andb_prop in Hevs as [Hev Hevs].
    apply negb_true_iff in Hev.
    destruct (on_event_keeps_tombstone p ev prev i m Hev Hi Hdel)
      as (m1 & Hi1 & Hdel1 & Hid1).
    destruct (IH _ m1 Hevs Hi1 Hdel1) as (m' & Hi' & Hdel' & Hid' & Hview).
    exists m'. repeat split; try done. congruence.
Qed.

Lemma tombstone_persists_witness :
  ∃ m', Part013Ext.conversation Scenario.alice_with_bob
          [Part013Ext.message_deleted (message_deleted.mk "m1");
           Part013Ext.message_edited
             (message_edited.mk "m1" "hello again" true "t3");
           Part013Ext.messages_read Scenario.bob_read_at_t1]
          [Scenario.m1] !! 0 = Some m'
        ∧ deleted m' = true.
Proof.
  destruct (tombstone_persists Scenario.alice_with_bob
              [Part013Ext.message_edited
                 (message_edited.mk "m1" "hello again" true "t3");
               Part013Ext.messages_read Scenario.bob_read_at_t1]
              [with_deleted Scenario.m1] 0 (with_deleted Scenario.m1))
    as (m' & H & Hd & _); [reflexivity..|].
  exists m'. split; [exact H|exact Hd].
Defined.

(** An edit touches the text only.  ['message_edited'] keeps the length
    and order of the conversation; a message with another id stays as it
    is; the message with the edited id takes [content], [edited] and
    [edited_at] from the event and keeps every other property.  So the
    ids, the deleted flags and every recorded delivery status are as
    they were, and no read receipt is lost to an edit. *)
Theorem edit_keeps_receipts (data : message_edited.data) (prev : list Message) :
  let after := Part013Ext.handleMessageEdited data prev in
  length after = length prev
  ∧ (∀ i m, prev !! i = Some m → id m ≠ message_edited.id data →
            after !! i = Some m)
  ∧ (∀ i m, prev !! i = Some m → id m = message_edited.id data →
       ∃ m', after !! i = Some m'
         ∧ content m' = message_edited.content data
         ∧ edited m' = message_edited.edited data
         ∧ edited_at m' = Some (message_edited.edited_at data)
         ∧ id m' = id m
         ∧ sender_id m' = sender_id m
         ∧ receiver_id m' = receiver_id m
         ∧ group_id m' = group_id m
         ∧ group_chat_id m' = group_chat_id m
         ∧ reply_to m' = reply_to m
         ∧ deleted m' = deleted m
         ∧ delivery_status m' = delivery_status m
         ∧ created_at m' = created_at m
         ∧ sender_name m' = sender_name m)
  ∧ id <$> after = id <$> prev
  ∧ deleted <$> after = deleted <$> prev
  ∧ delivery_status <$> after = delivery_status <$> prev
  ∧ ∀ mid r, status_of mid r after = status_of mid r prev.
Proof.
  simpl. unfold Part013Ext.handleMessageEdited.
  assert (∀ (B : Type) (g : Message → B),
            (∀ x y, g (Part013Ext.with_edit x y) = g x) →
            g <$> ((λ msg, if JS.strict_eq (id msg) (message_edited.id data)
                          then Part013Ext.with_edit msg data else msg) <$> prev)
            = g <$> prev) as Hkeep.
  { intros B g Hg. rewrite <- list_fmap_compose. apply list_fmap_ext.
    intros _ x _. simpl. by destruct (JS.strict_eq _ _). }
  split; [apply length_fmap|].
  split.
  { intros i m Hi Hne. rewrite list_lookup_fmap, Hi. simpl.
    unfold JS.strict_eq. by rewrite bool_decide_eq_false_2. }
  split.
  { intros i m Hi Heq. exists (Part013Ext.with_edit m data).
    rewrite list_lookup_fmap, Hi. simpl.
    unfold JS.strict_eq. rewrite bool_decide_eq_true_2; [|done].
    by repeat split. }
  repeat split; try by apply Hkeep.
  intros mid r. apply status_of_handleMessageEdited.
Qed.

Lemma edit_keeps_receipts_witness :
  Part013Ext.handleMessageEdited Scenario.m1_edited_at_t3
    [Scenario.m1; Scenario.m2] !! 1 = Some Scenario.m2
  ∧ ∃ m', Part013Ext.handleMessageEdited Scenario.m1_edited_at_t3
            [Scenario.m1; Scenario.m2] !! 0 = Some m'
          ∧ content m' = "hello again"
          ∧ sender_id m' = "alice".
Proof.
  pose proof (edit_keeps_receipts Scenario.m1_edited_at_t3
                [Scenario.m1; Scenario.m2]) as (_ & Hother & Hsame & _).
  split.
  - apply (Hother 1 Scenario.m2); [reflexivity | discriminate].
  - destruct (Hsame 0 Scenario.m1) as (m' & Hm' & Hc & _ & _ & _ & Hs & _);
      [reflexivity..|].
    exists m'. split; [exact Hm'|]. split; [exact Hc | exact Hs].
Defined.





End ListenersInDetail.

(** ** Search and the reply lookup *)

Section SearchAndLookup.
Import Chat.
Variable toLowerCase : string → string.

Lemma filter_fmap_keeps {A} (P : A → Prop) `{∀ x, Decision (P x)}
    (f : A → A) (l : list A) :
  (∀ x, P (f x) ↔ P x) → filter P (f <$> l) = f <$> filter P l.
Proof.
  intros Hf. induction l as [|x l IH]; [done|].
  rewrite fmap_cons, !filter_cons.
  destruct (decide (P (f x))) as [Hy|Hn]; destruct (decide (P x)) as [Hx|Hx].
  - rewrite fmap_cons. by f_equal.
  - destruct Hx. by apply (proj1 (Hf x)).
  - destruct Hn. by apply (proj2 (Hf x)).
  - done.
Qed.

(** The search shows messages of the conversation in their order and
    nothing else; an empty query shows them all; and deleting a message
    does not take it out of the results, since the tombstone keeps the
    text the search looks at: searching after the delete gives what the
    delete gives after searching. *)
Theorem search_sees_deleted_text (searchQuery : string)
    (data : message_deleted.data) (messages : list Message) :
  Part013Ext.filteredMessages toLowerCase searchQuery messages
    `sublist_of` messages
  ∧ Part013Ext.filteredMessages toLowerCase "" messages = messages
  ∧ Part013Ext.filteredMessages toLowerCase searchQuery
      (Part013.handleMessageDelete data messages)
    = Part013.handleMessageDelete data
        (Part013Ext.filteredMessages toLowerCase searchQuery messages).
Proof.
  unfold Part013Ext.filteredMessages. repeat split.
  - destruct (JS.truthy_string _); [apply sublist_filter|done].
  - destruct (JS.truthy_string _); [|done].
    unfold Part013.handleMessageDelete. apply filter_fmap_keeps.
    intros x. by destruct (JS.strict_eq _ _).
Qed.

Lemma messageLookup_snoc l m :
  Part013Ext.messageLookup (l ++ [m])
  = JSObject.assign (id m) m (Part013Ext.messageLookup l).
Proof. unfold Part013Ext.messageLookup. by rewrite foldl_app. Qed.

(** The own properties of the lookup: every id but ["__proto__"], each
    with the last message that carries it. *)
Lemma own_messageLookup (k : string) (messages : list Message) :
  JS.get k (JSObject.own (Part013Ext.messageLookup messages))
  = if decide (k = "__proto__") then None
    else last (filter (λ m, id m = k) messages).
Proof.
  induction messages as [|m l IH] using rev_ind.
  - simpl. by destruct (decide _).
  - rewrite messageLookup_snoc, filter_app, filter_cons, filter_nil.
    unfold JSObject.assign.
    destruct (decide (id m = "__proto__")) as [Hp|Hp].
    + rewrite bool_decide_eq_true_2; [|done]. simpl. rewrite IH.
      destruct (decide (k = "__proto__")) as [->|Hk]; [done|].
      rewrite decide_False; [|congruence]. by rewrite app_nil_r.
    + rewrite bool_decide_eq_false_2; [|done]. simpl.
      destruct (decide (id m = k)) as [<-|Hne].
      * rewrite get_assign_eq, last_snoc. by rewrite decide_False.
      * rewrite get_assign_ne; [|done]. by rewrite IH, app_nil_r.
Qed.

(** The prototype of the lookup: the last message whose id is
    ["__proto__"]. *)
Lemma prototype_messageLookup (messages : list Message) :
  JSObject.prototype (Part013Ext.messageLookup messages)
  = last (filter (λ m, id m = "__proto__") messages).
Proof.
  induction messages as [|m l IH] using rev_ind; [done|].
  rewrite messageLookup_snoc, filter_app, filter_cons, filter_nil.
  unfold JSObject.assign.
  destruct (decide (id m = "__proto__")) as [Hp|Hp].
  - rewrite bool_decide_eq_true_2; [|done]. simpl. by rewrite last_snoc.
  - rewrite bool_decide_eq_false_2; [|done]. simpl. by rewrite IH, app_nil_r.
Qed.

Lemma get_messageLookup (inherited : string → bool) (k : string)
    (messages : list Message) :
  JSObject.get inherited k (Part013Ext.messageLookup messages)
  = match last (filter (λ m, id m = k) messages) with
    | Some m => JSObject.Value m
    | None =>
        if bool_decide (k = "__proto__") then JSObject.ObjectPrototype
        else match last (filter (λ m, id m = "__proto__") messages) with
             | Some holder => JSObject.Member holder k
             | None => if inherited k then JSObject.Builtin k
                       else JSObject.Undefined
             end
    end.
Proof.
  unfold JSObject.get. rewrite own_messageLookup, prototype_messageLookup.
  destruct (decide (k = "__proto__")) as [->|Hk].
  - rewrite bool_decide_eq_true_2; [|done].
    by destruct (last (filter _ messages)).
  - rewrite bool_decide_eq_false_2; [|done].
    by destruct (last (filter (λ m, id m = k) messages)).
Qed.

Lemma filter_id_absent (k : string) (messages : list Message) :
  k ∉ id <$> messages → last (filter (λ m, id m = k) messages) = None.
Proof.
  intros Hk. apply last_None, elem_of_nil_inv. intros x Hx.
  apply list_elem_of_filter in Hx as [Hid Hx].
  apply Hk. rewrite <- Hid. by apply list_elem_of_fmap_2.
Qed.

(** [messageLookup[k]] is the last message of the conversation whose id
    is [k], for every key, ["__proto__"] included (there the message is
    reached as the prototype the assignment installed).  Under an id no
    message carries the lookup answers what the prototype chain of a
    plain object answers: [Object.prototype] for ["__proto__"], a
    property of the message installed as prototype if there is one, the
    property of [Object.prototype] of that name if it has one, and
    [undefined] only otherwise. *)
Theorem messageLookup_finds_last (inherited : string → bool) (k : string)
    (messages : list Message) :
  JSObject.get inherited k (Part013Ext.messageLookup messages)
  = match last (filter (λ m, id m = k) messages) with
    | Some m => JSObject.Value m
    | None =>
        if bool_decide (k = "__proto__") then JSObject.ObjectPrototype
        else match last (filter (λ m, id m = "__proto__") messages) with
             | Some holder => JSObject.Member holder k
             | None => if inherited k then JSObject.Builtin k
                       else JSObject.Undefined
             end
    end
  ∧ (k ∉ id <$> messages → "__proto__" ∉ id <$> messages →
     k ≠ "__proto__" →
     JSObject.get inherited k (Part013Ext.messageLookup messages)
     = if inherited k then JSObject.Builtin k else JSObject.Undefined).
Proof.
  split; [apply get_messageLookup|]. intros Hk Hp Hne.
  rewrite get_messageLookup, !filter_id_absent; [|done..].
  by rewrite bool_decide_eq_false_2.
Qed.

Lemma messageLookup_finds_last_witness :
  JSObject.get JSObject.standard "m9"
    (Part013Ext.messageLookup [Scenario.m1; Scenario.m2]) = JSObject.Undefined
  ∧ JSObject.get JSObject.standard "constructor"
      (Part013Ext.messageLookup [Scenario.m1; Scenario.m2])
    = JSObject.Builtin "constructor".
Proof.
  split.
  - apply (proj2 (messageLookup_finds_last JSObject.standard "m9"
                    [Scenario.m1; Scenario.m2]));
      [apply (bool_decide_unpack _); by vm_compute..|discriminate].
  - apply (proj2 (messageLookup_finds_last JSObject.standard "constructor"
                    [Scenario.m1; Scenario.m2]));
      [apply (bool_decide_unpack _); by vm_compute..|discriminate].
Defined.

(** A reply is shown with the message it answers when the server
    populated it or when that message is in the loaded conversation;
    with unique ids the lookup gives exactly that message. *)
Theorem reply_resolves_in_conversation (inherited : string → bool)
    (messages : list Message) (message target : Message) (r : string) :
  NoDup (id <$> messages) →
  target ∈ messages →
  reply_to message = Some r → r ≠ "" → id target = r →
  Part013Ext.quoted inherited messages None message = JSObject.Value target.
Proof.
  intros Hnd Hin Hreply Hr Hid. unfold Part013Ext.quoted.
  rewrite Hreply. simpl. rewrite bool_decide_eq_false_2; [|done]. simpl.
  rewrite get_messageLookup.
  apply list_elem_of_split in Hin as (l1 & l2 & ->).
  rewrite filter_app, filter_cons, decide_True; [|done].
  rewrite fmap_app, fmap_cons in Hnd.
  apply NoDup_app in Hnd as (_ & Hdisj & Hnd2).
  apply NoDup_cons in Hnd2 as [Hnot _].
  replace (filter (λ m, id m = r) l2) with (@nil Message).
  - by rewrite last_snoc.
  - symmetry. apply elem_of_nil_inv. intros x Hx.
    apply list_elem_of_filter in Hx as [Hxr Hx].
    apply Hnot. rewrite Hid, <- Hxr. by apply list_elem_of_fmap_2.
Qed.

Lemma reply_resolves_in_conversation_witness :
  Part013Ext.quoted JSObject.standard [Scenario.m1; Scenario.m2] None
    (mkMessage "m3" "bob" (Some "alice") None None "yes" (Some "m2") false
               None false None "2024-01-01T10:02:00Z" (Some "Bob"))
  = JSObject.Value Scenario.m2.
Proof.
  apply (reply_resolves_in_conversation JSObject.standard
           [Scenario.m1; Scenario.m2] _ Scenario.m2 "m2").
  - simpl. apply NoDup_cons. split; [|apply NoDup_singleton].
    intros H. apply list_elem_of_singleton in H. discriminate H.
  - apply list_elem_of_further, list_elem_of_here.
  - reflexivity.
  - discriminate.
  - reflexivity.
Defined.

End SearchAndLookup.

(** ** More on typing: expiry in the socket variant, cancelled emits *)

Section TypingInDetail.
Import Chat.

Lemma scoped_group_typing_expiry_witness :
  Indicator.shown 4999
    (Indicator.run (Part014.handleTyping Scenario.alice_in_G)
       ([(0%Z, Scenario.bob_typing_event_in_G)]
        ++ [(2000%Z, Scenario.bob_typing_event_in_G)]))
  = bool_decide (4999 < 2000 + 3000)%Z.
Proof.
  apply (scoped_group_typing_expiry Scenario.alice_in_G
           [(0%Z, Scenario.bob_typing_event_in_G)]
           Scenario.bob_typing_event_in_G 2000 4999);
    [reflexivity | reflexivity | reflexivity | discriminate].
Defined.

Lemma scoped_personal_typing_expiry_witness :
  Indicator.shown 3000
    (Indicator.run
       (Part014.handleTyping (mkProps "bob" false (Some "bob") (Some "alice")))
       ([] ++ [(0%Z, TypingEvent.mk "bob" "alice" None false)]))
  = bool_decide (3000 < 0 + 3000)%Z.
Proof.
  apply (scoped_personal_typing_expiry
           (mkProps "bob" false (Some "bob") (Some "alice")) []
           (TypingEvent.mk "bob" "alice" None false) 0 3000);
    reflexivity.
Defined.

Lemma run13_armed_only evs :
  Indicator.armed_only (Indicator.run Part013.handleTyping evs).
Proof.
  unfold Indicator.run.
  assert (Indicator.armed_only Indicator.initial) as H0 by constructor.
  revert H0. generalize Indicator.initial.
  induction evs as [|[t []] evs IH]; intros st Hst; [done|]. simpl.
  apply IH. unfold Indicator.deliver. simpl. rewrite handleTyping13_rearms.
  by apply show_and_rearm_armed_only, run_due_armed_only.
Qed.

(** The ['typing'] listener of the socket variant resets as well: after
    any run of typing events, the last of them at [L], the indicator is
    on screen exactly until three seconds after [L], however many
    signals came before and however close together. *)
Theorem typing_listener_expiry (evs : list (Z * unit)) (L now : Z) :
  Indicator.shown now (Indicator.run Part013.handleTyping (evs ++ [(L, ())]))
  = bool_decide (now < L + 3000)%Z.
Proof.
  pose proof (run13_armed_only evs) as Harm. revert Harm.
  unfold Indicator.run. rewrite foldl_app.
  generalize (foldl (Indicator.deliver Part013.handleTyping)
                    Indicator.initial evs).
  intros st Harm. simpl. unfold Indicator.deliver. simpl.
  rewrite handleTyping13_rearms.
  by apply rearm_shows_for_three_seconds, run_due_armed_only.
Qed.

Lemma debounced_emits_spaced_witness :
  Composer.spaced 1000
    (Part014.run Scenario.alice_with_bob true
       [(5000%Z, Composer.Change "h"); (5100%Z, Composer.Change "he");
        (6000%Z, Composer.Fire 1); (6100%Z, Composer.Change "hel")]
       Composer.initial).2.*1 = true.
Proof.
  apply (debounced_emits_spaced Scenario.alice_with_bob true).
  repeat constructor; discriminate.
Defined.

Lemma paced_forget st sent_at : Composer.paced st sent_at → Composer.paced st [].
Proof. intros (_ & _ & H). by repeat split. Qed.

(** Every state the composer can reach, sends included, has at most the
    pending emit its ref holds. *)
Lemma run_reaches_paced p connected tr :
  ∀ st, Composer.paced st [] →
        Composer.paced (Part014.run p connected tr st).1 [].
Proof.
  induction tr as [|[now i] tr IH]; intros st Hp; [done|]. simpl.
  assert (Composer.paced (Part014.step p connected now i st).1 []) as Hstep.
  { destruct i as [value|h|].
    - eapply paced_forget, step_paced; done.
    - eapply paced_forget, step_paced; done.
    - simpl. repeat split; simpl; try done.
      rewrite (paced_cleared st [] Hp). constructor. }
  destruct (Part014.step p connected now i st) as [st' out].
  specialize (IH st' Hstep).
  by destruct (Part014.run p connected tr st') as [st'' log].
Qed.

Lemma fires_without_pending p connected tr st :
  forallb ComposerRuns.is_fire tr = true →
  Timers.pending (Composer.timers st) = [] →
  (Part014.run p connected tr st).2 = [].
Proof.
  revert st. induction tr as [|[now i] tr IH]; intros st Hfire Hnone; [done|].
  simpl in Hfire. apply andb_prop in Hfire as [Hi Hfire].
  destruct i as [v|h|]; try discriminate Hi. simpl.
  unfold Timers.lookup. rewrite Hnone. simpl.
  specialize (IH st Hfire Hnone).
  destruct (Part014.run p connected tr st) as [st' log]. simpl in *.
  by rewrite IH.
Qed.

(** A send, or emptying the input, drops the emit that was waiting: in
    whatever state the composer is, once the send has completed or the
    input has been cleared, timer callbacks alone send no typing signal;
    it takes a new change of the input. *)
Theorem send_or_clear_cancels_pending_emit (p : Props) (connected : bool)
    (before after : list (Z * Composer.Input)) (now : Z) :
  forallb ComposerRuns.is_fire after = true →
  let st := (Part014.run p connected before Composer.initial).1 in
  (Part014.run p connected after (Part014.after_send st)).2 = []
  ∧ (Part014.onChange p connected now "" st).2 = []
  ∧ (Part014.run p connected after
       (Part014.onChange p connected now "" st).1).2 = [].
Proof.
  intros Hfire st.
  assert (Composer.paced st []) as Hp.
  { apply run_reaches_paced. repeat split; constructor. }
  pose proof (paced_cleared st [] Hp) as Hclr.
  split; [by apply fires_without_pending|].
  unfold Part014.onChange. simpl. rewrite andb_false_r. simpl.
  split; [done|]. by apply fires_without_pending.
Qed.

Lemma send_or_clear_cancels_pending_emit_witness :
  (Part014.run Scenario.alice_with_bob true [(6000%Z, Composer.Fire 1)]
     (Part014.after_send
        (Part014.run Scenario.alice_with_bob true
           [(5000%Z, Composer.Change "h"); (5100%Z, Composer.Change "he")]
           Composer.initial).1)).2 = [].
Proof.
  apply (send_or_clear_cancels_pending_emit Scenario.alice_with_bob true
           [(5000%Z, Composer.Change "h"); (5100%Z, Composer.Change "he")]
           [(6000%Z, Composer.Fire 1)] 0).
  reflexivity.
Defined.

End TypingInDetail.

(** ** Desktop notifications *)

Section Notifications.
Import Chat SocketContextExt.

Lemma times_of_app key l1 l2 :
  times_of key (l1 ++ l2) = times_of key l1 ++ times_of key l2.
Proof. unfold times_of. by rewrite filter_app, fmap_app. Qed.

(** What the notifier keeps true, over the notifications [pre] shown
    so far: under each key they are two seconds apart, and none is later
    than the time remembered for the key. *)
Lemma showNotification_keeps_apart supported now ttl options st pre :
  (0 < now)%Z →
  (∀ k, Composer.spaced 2000 (times_of k pre) = true
        ∧ Forall (λ t, (0 < t)%Z
                       ∧ ∃ lt, lastNotificationTimeRef st !! k = Some lt
                               ∧ (t ≤ lt)%Z)
                 (times_of k pre)) →
  let r := showNotification supported now ttl options st in
  ∀ k, Composer.spaced 2000
         (times_of k (pre ++ match r.2 with
                              | Some n => [(now, n)]
                              | None => []
                              end)) = true
       ∧ Forall (λ t, (0 < t)%Z
                      ∧ ∃ lt, lastNotificationTimeRef r.1 !! k = Some lt
                              ∧ (t ≤ lt)%Z)
                (times_of k (pre ++ match r.2 with
                                    | Some n => [(now, n)]
                                    | None => []
                                    end)).
Proof.
  intros Hnow Hinv r k. subst r. unfold showNotification.
  assert (∀ k0, k0 = notificationKey ttl options →
            (∀ t, t ∈ times_of k0 pre → (t + 2000 ≤ now)%Z) →
            Composer.spaced 2000
              (times_of k (pre ++ [(now, mkNotification ttl k0
                                           (options ≫= body) (options ≫= data))]))
            = true
            ∧ Forall (λ t, (0 < t)%Z
                           ∧ ∃ lt, <[k0 := now]> (lastNotificationTimeRef st) !! k
                                   = Some lt ∧ (t ≤ lt)%Z)
                (times_of k (pre ++ [(now, mkNotification ttl k0
                                             (options ≫= body) (options ≫= data))])))
    as Hshow.
  { intros k0 _ Hfar. rewrite times_of_app. unfold times_of at 2 4.
    rewrite filter_cons, filter_nil. simpl.
    destruct (Hinv k) as [Hsp Hle].
    destruct (decide (k0 = k)) as [->|Hne]; simpl.
    - split.
      + apply spaced_snoc; [done|]. apply Forall_forall. intros t Ht.
        by apply Hfar.
      + apply Forall_app. split.
        * apply Forall_forall. intros t Ht. rewrite Forall_forall in Hle.
          destruct (Hle t Ht) as [Hpos _]. split; [done|].
          exists now. rewrite lookup_insert_eq. split; [done|].
          specialize (Hfar t Ht). lia.
        * constructor; [|constructor]. split; [done|].
          exists now. by rewrite lookup_insert_eq.
    - rewrite app_nil_r. split; [done|].
      eapply Forall_impl; [exact Hle|]. simpl. intros t [Hpos (lt & Hlt & Hle')].
      split; [done|]. exists lt. by rewrite lookup_insert_ne. }
  assert (Composer.spaced 2000 (times_of k (pre ++ [])) = true
          ∧ Forall (λ t, (0 < t)%Z
                         ∧ ∃ lt, lastNotificationTimeRef st !! k = Some lt
                                 ∧ (t ≤ lt)%Z)
              (times_of k (pre ++ []))) as Hquiet.
  { rewrite app_nil_r. apply Hinv. }
  destruct supported; simpl; [|done].
  destruct (notificationPermissionRef st); simpl; try done.
  destruct (lastNotificationTimeRef st !! notificationKey ttl options)
    as [lastTime|] eqn:Hlast.
  - destruct (negb (bool_decide (lastTime = 0%Z))
              && bool_decide (now - lastTime < 2000)%Z) eqn:Hrecent; simpl;
      [done|].
    apply Hshow; [done|]. intros t Ht.
    destruct (Hinv (notificationKey ttl options)) as [_ Hle].
    rewrite Forall_forall in Hle.
    destruct (Hle t Ht) as [Hpos (lt & Hlt & Hle')].
    rewrite Hlast in Hlt. injection Hlt as <-.
    apply andb_false_iff in Hrecent as [Hzero|Hlate].
    + apply negb_false_iff, bool_decide_eq_true_1 in Hzero. lia.
    + apply bool_decide_eq_false_1 in Hlate. lia.
  - apply Hshow; [done|]. intros t Ht.
    destruct (Hinv (notificationKey ttl options)) as [_ Hle].
    rewrite Forall_forall in Hle.
    destruct (Hle t Ht) as [_ (lt & Hlt & _)]. rewrite Hlast in Hlt.
    discriminate Hlt.
Qed.

Lemma run_keeps_apart supported calls :
  ∀ st pre,
    Forall (λ c, (0 < at_time c)%Z) calls →
    (∀ k, Composer.spaced 2000 (times_of k pre) = true
          ∧ Forall (λ t, (0 < t)%Z
                         ∧ ∃ lt, lastNotificationTimeRef st !! k = Some lt
                                 ∧ (t ≤ lt)%Z)
                   (times_of k pre)) →
    ∀ k, Composer.spaced 2000
           (times_of k (pre ++ (run supported calls st).2)) = true.
Proof.
  induction calls as [|c calls IH]; intros st pre Hpos Hinv k; simpl.
  - rewrite app_nil_r. apply Hinv.
  - apply Forall_cons in Hpos as [Hc Hpos].
    pose proof (showNotification_keeps_apart supported (at_time c)
                  (call_title c) (call_options c) st pre Hc Hinv) as Hstep.
    simpl in Hstep.
    destruct (showNotification supported (at_time c) (call_title c)
                (call_options c) st) as [st' shown].
    specialize (IH st' _ Hpos Hstep k). simpl in *.
    destruct (run supported calls st') as [st'' log]. simpl in *.
    destruct shown as [n|]; simpl in *.
    + by rewrite <- app_assoc in IH.
    + by rewrite app_nil_r in IH.
Qed.

(** The provider's duplicate guard: over any sequence of
    [showNotification] calls (at positive clock readings), two
    notifications that go on screen under the same key, that is with
    the same title and body, are at least two seconds apart; and without
    the permission, or without browser support, none goes on screen. *)
Theorem notifications_of_a_key_two_seconds_apart (supported : bool)
    (calls : list Call) (key : string) :
  Forall (λ c, (0 < at_time c)%Z) calls →
  Composer.spaced 2000
    (times_of key (run supported calls (mkNotifier granted ∅)).2) = true
  ∧ (run supported calls initial).2 = []
  ∧ (run false calls (mkNotifier granted ∅)).2 = [].
Proof.
  intros Hpos. split; [|split].
  - apply (run_keeps_apart supported calls (mkNotifier granted ∅) [] Hpos).
    intros k. split; [done|constructor].
  - clear Hpos. induction calls as [|c calls IH]; [done|]. simpl.
    unfold showNotification. destruct supported; simpl;
      destruct (run _ calls initial) as [st log]; simpl in *; by subst.
  - clear Hpos. induction calls as [|c calls IH]; [done|]. simpl.
    destruct (run false calls _) as [st log]; simpl in *. by subst.
Qed.

Lemma notifications_of_a_key_two_seconds_apart_witness :
  (run true [mkCall 1000 "Bob" (Some (mkOptions (Some "hi") None));
             mkCall 1500 "Bob" (Some (mkOptions (Some "hi") None));
             mkCall 3000 "Bob" (Some (mkOptions (Some "hi") None))]
       (mkNotifier granted ∅)).2.*1 = [1000%Z; 3000%Z]
  ∧ Composer.spaced 2000
      (times_of "Bob-hi"
         (run true [mkCall 1000 "Bob" (Some (mkOptions (Some "hi") None));
                    mkCall 1500 "Bob" (Some (mkOptions (Some "hi") None));
                    mkCall 3000 "Bob" (Some (mkOptions (Some "hi") None))]
              (mkNotifier granted ∅)).2) = true.
Proof.
  split; [by vm_compute|].
  apply (notifications_of_a_key_two_seconds_apart true
           [mkCall 1000 "Bob" (Some (mkOptions (Some "hi") None));
            mkCall 1500 "Bob" (Some (mkOptions (Some "hi") None));
            mkCall 3000 "Bob" (Some (mkOptions (Some "hi") None))] "Bob-hi").
  repeat constructor; simpl; lia.
Defined.

End Notifications.

Section MessageNotification.
Import SocketContextExt.

(** The notification for an incoming message, its texts counted in
    UTF-16 code units as [length] and [substring] count them: a message
    the user sent raises none; any other raises one whose body is never
    empty and never longer than 103 units, is the message's own text
    whenever that has between 1 and 100 units, is the first 100 units of
    the text followed by three dots when it has more, and is the stock
    text when the message has none. *)
Theorem message_notification_body_bounded (user_id : string)
    (message : IncomingMessage) :
  match handleNewMessage user_id message with
  | None => incoming_sender_id message = user_id
  | Some call =>
      incoming_sender_id message ≠ user_id
      ∧ 0 < JSString.length16 (show_body call) ≤ 103
      ∧ (0 < JSString.length16 (incoming_content message) ≤ 100 →
         show_body call = incoming_content message)
      ∧ (100 < JSString.length16 (incoming_content message) →
         show_body call
         = (take 100 (incoming_content message) ++ JSString.literal "...")%list)
      ∧ (incoming_content message = [] →
         show_body call = JSString.literal "New message")
  end.
Proof.
  unfold handleNewMessage, JS.strict_eq, JSString.length16,
    JSString.substring16_to.
  destruct (decide (incoming_sender_id message = user_id)) as [Hown|Hother].
  - by rewrite bool_decide_eq_true_2.
  - rewrite bool_decide_eq_false_2; [|done]. simpl. split; [done|].
    assert (length (JSString.literal "...") = 3) as Hdots by reflexivity.
    assert (length (JSString.literal "New message") = 11) as Hstock
      by reflexivity.
    destruct (incoming_content message) as [|c s] eqn:Hcontent.
    + cbn [JSString.truthy16]. rewrite bool_decide_eq_false_2; [|lia].
      rewrite Hstock. simpl length.
      split; [lia|]. split; [lia|]. split; [lia|]. done.
    + cbn [JSString.truthy16].
      destruct (decide (100 < length (c :: s))) as [Hlong|Hshort].
      * rewrite bool_decide_eq_true_2; [|done].
        rewrite length_app, length_take, Hdots.
        split; [lia|]. split; [lia|]. split; [done|]. done.
      * rewrite bool_decide_eq_false_2; [|done].
        split; [simpl in *; lia|]. split; [done|]. split; [lia|]. done.
Qed.

End MessageNotification.

(** ** The API client *)

Section ApiRequests.
Import ApiClient.
Context {J : Type}.
Variable detail_of message_of : J → option string.
Variable in_browser : bool.

Lemma settle_resolved (response : Response J) :
  resolved (settle detail_of message_of response) = true → ok response = true.
Proof.
  unfold settle. destruct (ok response); [done|]. simpl. discriminate.
Qed.

(** One call of [request] on a client with no refresh in flight: it
    fetches the endpoint, and only if that answers 401 on an endpoint
    other than the refresh one does it fetch [/auth/refresh], and only if
    that succeeds does it fetch the endpoint again, once; so there are
    never more than three fetches and the refresh endpoint is never
    retried.  It resolves only when the last response it got was ok
    (2xx).  It sends the browser to ['/'] only when it fails after a
    refresh attempt. *)
Theorem request_refreshes_and_retries_once (net : Network J) (endpoint : string) :
  let r := request detail_of message_of in_browser net endpoint pristine in
  (fetched r.2 = [endpoint]
   ∨ fetched r.2 = [endpoint; "/auth/refresh"]
   ∨ fetched r.2 = [endpoint; "/auth/refresh"; endpoint])
  ∧ (endpoint = "/auth/refresh" → fetched r.2 = [endpoint])
  ∧ ((∀ first, net 0 = Some first → status first ≠ 401) →
     fetched r.2 = [endpoint])
  ∧ (fetched r.2 = [endpoint; "/auth/refresh"; endpoint] →
     ∃ first refreshed,
       net 0 = Some first ∧ status first = 401
       ∧ net 1 = Some refreshed ∧ ok refreshed = true)
  ∧ (resolved r.1 = true →
     ∃ response,
       net (length (fetched r.2) - 1) = Some response ∧ ok response = true)
  ∧ (redirected r.2 = true →
     in_browser = true ∧ resolved r.1 = false
     ∧ "/auth/refresh" ∈ fetched r.2).
Proof.
  simpl. unfold request, refreshToken, fetch, redirect, pristine. simpl.
  destruct (net 0) as [first|] eqn:H0; simpl;
    [destruct (bool_decide (status first = 401)) eqn:H401; simpl;
     [apply bool_decide_eq_true_1 in H401; unfold JS.strict_eq;
      destruct (decide (endpoint = "/auth/refresh")) as [Hrefresh|Hother];
      [rewrite (bool_decide_eq_true_2 _ Hrefresh)
      |rewrite (bool_decide_eq_false_2 _ Hother); simpl;
       destruct (net 1) as [refreshed|] eqn:H1; simpl;
       [destruct (ok refreshed) eqn:Hok; simpl;
        [destruct (net 2) as [retried|] eqn:H2; simpl|]|]]
     |apply bool_decide_eq_false_1 in H401]|];
    simpl;
    (split; [auto|]);
    (split; [try done; intros ->; done|]);
    (split; [first [done | intros H; by destruct (H first)]|]);
    (split; [first [intros H; discriminate H
                   | intros H; injection H as H; by rewrite H in Hother
                   | intros _; by exists first, refreshed
                   | intros H; injection H as H; congruence ]|]);
    (split; [first [intros H; discriminate H
                   | intros H; apply settle_resolved in H; eauto ]|]);
    first [ intros H; discriminate H
          | intros H; destruct in_browser; [|discriminate H];
            repeat split; apply list_elem_of_further, list_elem_of_here ].
Qed.

End ApiRequests.

Lemma request_refreshes_and_retries_once_witness :
  ApiClient.fetched
    (ApiClient.request (J := unit) (λ _, None) (λ _, None) true
       (λ n, match n with
             | 0 => Some (ApiClient.mkResponse 401 "Unauthorized" None
                                               ApiClient.Rejects)
             | 1 => Some (ApiClient.mkResponse 200 "OK" None ApiClient.Rejects)
             | _ => Some (ApiClient.mkResponse 200 "OK"
                            (Some "application/json") (ApiClient.Value ()))
             end)
       "/messages/mark-all-read" ApiClient.pristine).2
  = ["/messages/mark-all-read"; "/auth/refresh"; "/messages/mark-all-read"]
  ∧ ApiClient.fetched
      (ApiClient.request (J := unit) (λ _, None) (λ _, None) true
         (λ _, Some (ApiClient.mkResponse 200 "OK" None ApiClient.Rejects))
         "/chat/groups" ApiClient.pristine).2
    = ["/chat/groups"].
Proof.
  split; [reflexivity|].
  apply (request_refreshes_and_retries_once (J := unit) (λ _, None) (λ _, None)
           true (λ _, Some (ApiClient.mkResponse 200 "OK" None ApiClient.Rejects))
           "/chat/groups").
  intros first H. injection H as <-. discriminate.
Defined.

(** ** Timestamps *)

Section Timestamps.
Import TimeUtils.

Lemma list_ascii_of_append (a b : string) :
  String.list_ascii_of_string (String.append a b)
  = String.list_ascii_of_string a ++ String.list_ascii_of_string b.
Proof. induction a as [|c a IH]; simpl; [done|]. by rewrite IH. Qed.

Lemma append_Z_zone_letter s : ends_with_zone_letter (String.append s "Z") = true.
Proof.
  unfold ends_with_zone_letter. rewrite list_ascii_of_append. simpl.
  by rewrite last_snoc.
Qed.

Lemma append_Z_truthy s : JS.truthy_string (Some (String.append s "Z")) = true.
Proof. simpl. by destruct s. Qed.

Lemma normalizeToISO_nonempty s :
  s ≠ "" →
  normalizeToISO (Some s)
  = if ends_with_zone_letter s || ends_with_offset s then Some s
    else if is_naive s then Some (String.append s "Z") else Some s.
Proof.
  intros Hs. unfold normalizeToISO. simpl.
  by rewrite (bool_decide_eq_false_2 _ Hs).
Qed.

Lemma append_Z_nonempty s : String.append s "Z" ≠ "".
Proof. by destruct s. Qed.

(** [normalizeToISO] settles in one step: normalizing its result gives
    the same result.  What it gives is [null] exactly for a missing or
    empty timestamp; otherwise the timestamp itself, or, only for a naive
    [YYYY-MM-DDTHH:MM:SS] one, the timestamp with [Z] appended; a
    timestamp that already ends in [Z], [z] or a [+HH:MM] offset is never
    changed. *)
Theorem normalizeToISO_settles (iso : option string) :
  normalizeToISO (normalizeToISO iso) = normalizeToISO iso
  ∧ (normalizeToISO iso = None ↔ JS.truthy_string iso = false)
  ∧ (∀ s, iso = Some s → s ≠ "" →
          normalizeToISO iso = Some s
          ∨ (normalizeToISO iso = Some (String.append s "Z")
             ∧ is_naive s = true
             ∧ ends_with_zone_letter s = false
             ∧ ends_with_offset s = false))
  ∧ (∀ s, iso = Some s →
          ends_with_zone_letter s || ends_with_offset s = true →
          normalizeToISO iso = Some s).
Proof.
  destruct iso as [s|]; [|by repeat split].
  destruct (decide (s = "")) as [->|Hs]; [by repeat split; try intros ? [= <-]|].
  assert (JS.truthy_string (Some s) = true) as Htruthy.
  { simpl. by rewrite (bool_decide_eq_false_2 _ Hs). }
  rewrite Htruthy, (normalizeToISO_nonempty s Hs).
  destruct (ends_with_zone_letter s || ends_with_offset s) eqn:Hzone.
  - split; [by rewrite (normalizeToISO_nonempty s Hs), Hzone|].
    split; [done|]. split.
    + intros s' [= <-] _. by left.
    + by intros s' [= <-] _.
  - destruct (is_naive s) eqn:Hnaive.
    + split.
      { rewrite (normalizeToISO_nonempty _ (append_Z_nonempty s)).
        by rewrite append_Z_zone_letter. }
      split; [done|]. split.
      * intros s' [= <-] _. right. apply orb_false_iff in Hzone as [-> ->].
        by repeat split.
      * intros s' [= <-] H. rewrite Hzone in H. discriminate H.
    + split; [by rewrite (normalizeToISO_nonempty s Hs), Hzone, Hnaive|].
      split; [done|]. split.
      * intros s' [= <-] _. by left.
      * intros s' [= <-] H. rewrite Hzone in H. discriminate H.
Qed.

Lemma normalizeToISO_settles_witness :
  normalizeToISO (Some "2024-01-01T10:00:00") = Some "2024-01-01T10:00:00Z"
  ∧ normalizeToISO (Some "2024-01-01T10:00:00+05:30")
    = Some "2024-01-01T10:00:00+05:30".
Proof.
  split.
  - destruct (proj1 (proj2 (proj2 (normalizeToISO_settles
                (Some "2024-01-01T10:00:00")))) "2024-01-01T10:00:00" eq_refl)
      as [H|[H _]]; [discriminate | discriminate H | exact H].
  - apply (proj2 (proj2 (proj2 (normalizeToISO_settles
              (Some "2024-01-01T10:00:00+05:30"))))
             "2024-01-01T10:00:00+05:30" eq_refl).
    reflexivity.
Defined.

End Timestamps.

(** ** The member picker and the sidebar badge *)

Section SmallState.

Lemma filter_keeps_all {A} (P : A → Prop) `{∀ x, Decision (P x)} (l : list A) :
  Forall P l → filter P l = l.
Proof.
  induction 1 as [|x l Hx _ IH]; [done|].
  rewrite filter_cons. destruct (decide (P x)); [by f_equal|done].
Qed.

(** Toggling a user in the member picker flips that user's membership
    and nobody else's, and keeps a selection without repeats without
    repeats; toggling a user who is not selected and toggling again gives
    back the selection as it was. *)
Theorem toggleUser_flips_one (userId : string) (prev : list string) :
  (∀ u, u ∈ CreateGroupPage.toggleUser userId prev
        ↔ (if decide (u = userId) then u ∉ prev else u ∈ prev))
  ∧ (NoDup prev → NoDup (CreateGroupPage.toggleUser userId prev))
  ∧ (userId ∉ prev →
     CreateGroupPage.toggleUser userId
       (CreateGroupPage.toggleUser userId prev) = prev).
Proof.
  unfold CreateGroupPage.toggleUser. split; [|split].
  - intros u. destruct (decide (userId ∈ prev)) as [Hin|Hout].
    + rewrite (bool_decide_eq_true_2 _ Hin), list_elem_of_filter.
      destruct (decide (u = userId)) as [->|Hne]; split.
      * by intros [Hne _].
      * done.
      * by intros [_ Hu].
      * done.
    + rewrite (bool_decide_eq_false_2 _ Hout), elem_of_app, list_elem_of_singleton.
      destruct (decide (u = userId)) as [->|Hne]; split.
      * done.
      * intros _. by right.
      * by intros [Hu|Hu].
      * intros Hu. by left.
  - intros Hnd. destruct (bool_decide (userId ∈ prev)) eqn:Hin.
    + by apply NoDup_filter.
    + apply bool_decide_eq_false_1 in Hin. apply NoDup_app.
      split; [done|]. split; [|apply NoDup_singleton].
      intros x Hx Hx'%list_elem_of_singleton. by subst.
  - intros Hout. rewrite (bool_decide_eq_false_2 _ Hout).
    rewrite bool_decide_eq_true_2.
    + rewrite filter_app, filter_cons, filter_nil.
      destruct (decide (userId ≠ userId)) as [Hc|_]; [done|].
      rewrite app_nil_r. apply filter_keeps_all, Forall_forall.
      intros x Hx ->. done.
    + apply elem_of_app. right. by apply list_elem_of_singleton.
Qed.

Lemma toggleUser_flips_one_witness :
  NoDup (CreateGroupPage.toggleUser "bob" ["alice"; "bob"; "carol"])
  ∧ CreateGroupPage.toggleUser "dave"
      (CreateGroupPage.toggleUser "dave" ["alice"; "bob"])
    = ["alice"; "bob"].
Proof.
  split.
  - apply (toggleUser_flips_one "bob" ["alice"; "bob"; "carol"]).
    apply (bool_decide_unpack _). by vm_compute.
  - apply (toggleUser_flips_one "dave" ["alice"; "bob"]).
    apply (bool_decide_unpack _). by vm_compute.
Defined.

Lemma badge_stays_nonnegative (evs : list Sidebar.BadgeEvent) (n : Z) :
  (0 ≤ n)%Z → (0 ≤ foldl Sidebar.on_badge_event n evs)%Z.
Proof.
  revert n. induction evs as [|ev evs IH]; intros n Hn; [done|]. simpl.
  apply IH. destruct ev as [k|s|s o]; simpl.
  - lia.
  - destruct (JS.strict_eq _ _); lia.
  - destruct (_ && _); [lia|]. destruct (_ && _); lia.
Qed.

(** The pending-task badge never shows a negative number, whatever task
    events arrive and in whatever order, even status changes away from
    pending for tasks the badge never counted. *)
Theorem pendingCount_never_negative (evs : list Sidebar.BadgeEvent) :
  (0 ≤ Sidebar.pendingCount evs)%Z.
Proof. apply badge_stays_nonnegative. lia. Qed.

End SmallState.

(** ** The two variants side by side, and what the inbound listeners post *)

Section VariantsAndPosts.
Import Chat.

(** Both variants of [MessageBubble] decide every message the same
    way: the deleted placeholder or the body, and for an own message the
    same of the three tick states (read, delivered, neither); and a
    message that is not the user's own never carries a tick. *)
Theorem bubble_variants_agree (message : Message) (isOwn : bool) :
  Part014.MessageBubble message isOwn = Part013.MessageBubble message isOwn
  ∧ (isOwn = false → deleted message = false →
     Part013.MessageBubble message isOwn = Bubble.Body (content message) None).
Proof.
  split.
  - unfold Part014.MessageBubble, Part013.MessageBubble, Part014.tick,
      Part013.tick, Part014.isRead, Part013.isRead, Part014.isDelivered,
      Part013.isDelivered.
    change (Part014.deliveryStatus message isOwn)
      with (Part013.deliveryStatus message isOwn).
    destruct (deleted message); [done|]. destruct isOwn; [|done].
    destruct (Part013.deliveryStatus message true) as [[d r ra da]|]; [|done].
    simpl. unfold JS.strict_eq.
    by destruct r as [[]|], d as [[]|].
  - intros -> Hdel. unfold Part013.MessageBubble. by rewrite Hdel.
Qed.

Lemma bubble_variants_agree_witness :
  Part013.MessageBubble
    (mkMessage "m4" "bob" (Some "alice") None None "hey" None false None false
               None "2024-01-01T10:03:00Z" (Some "Bob")) false
  = Bubble.Body "hey" None.
Proof.
  apply (bubble_variants_agree
           (mkMessage "m4" "bob" (Some "alice") None None "hey" None false None
                      false None "2024-01-01T10:03:00Z" (Some "Bob")) false);
    reflexivity.
Defined.

(** What the inbound message listeners post back: nothing for a
    message the user sent; and whatever they post, they post whether or
    not the message was already in the conversation (a repeated event
    repeats the posts), and only for a message that is in the
    conversation afterwards. *)
Theorem inbound_posts (p : Props) (ev : Part013.Inbound) (prev : list Message) :
  (Part013.on_inbound p ev prev).2 = (Part013.on_inbound p ev []).2
  ∧ (Some (sender_id (Part013.payload ev)) = userId p →
     (Part013.on_inbound p ev prev).2 = [])
  ∧ ((Part013.on_inbound p ev prev).2 ≠ [] →
     id (Part013.payload ev) ∈ id <$> (Part013.on_inbound p ev prev).1).
Proof.
  assert (∀ m, id m ∈ id <$> Part013.append_if_new m prev) as Hin.
  { intros m. unfold Part013.append_if_new, JS.some.
    destruct (existsb _ prev) eqn:Hex.
    - apply existsb_exists in Hex as (x & Hx & Hid).
      apply bool_decide_eq_true_1 in Hid. rewrite <- Hid.
      by apply list_elem_of_fmap_2, list_elem_of_In.
    - rewrite fmap_app. apply elem_of_app. right. apply list_elem_of_here. }
  destruct ev as [m|m|m]; simpl;
    unfold Part013.handleNewMessage, Part013.handleGroupMessage,
      Part013.handleReceiveMessage, Part013.from_other, JS.strict_eq;
    match goal with |- context [if ?c then (_, _) else (_, _)] =>
      destruct c end; simpl;
    (split; [done|]);
    (split; [intros Hown; by rewrite ?(bool_decide_eq_true_2 _ Hown)|]);
    first [done | intros _; apply Hin].
Qed.

Lemma inbound_posts_witness :
  (Part013.on_inbound Scenario.alice_with_bob
     (Part013.receive_message Scenario.m1) []).2 = [].
Proof.
  apply (inbound_posts Scenario.alice_with_bob
           (Part013.receive_message Scenario.m1) []).
  reflexivity.
Defined.

Lemma run_due_idle now st :
  Indicator.isTyping st = false →
  Timers.pending (Indicator.timers st) = [] →
  Indicator.run_due now st = st.
Proof.
  intros Hoff Hnone. unfold Indicator.run_due, Timers.take_due.
  rewrite Hnone. simpl. destruct st as [t r [pend nh]]. simpl in *.
  by subst.
Qed.

(** The scoped typing handler shows nothing for other conversations:
    in a group chat, typing events that are the user's own, or for
    another group, or not group events; in a one-to-one chat, typing
    events that are group events, or not from the peer, or not addressed
    to the user, leave the indicator off for good. *)
Theorem typing_elsewhere_never_shows (p : Props)
    (evs : list (Z * TypingEvent.t)) (now : Z) :
  Forall (λ e,
            if isGroup p
            then TypingEvent.is_group e.2 = false
                 ∨ TypingEvent.group_chat_id e.2 ≠ Some (chatId p)
                 ∨ Some (TypingEvent.sender_id e.2) = userId p
            else TypingEvent.is_group e.2 = true
                 ∨ Some (TypingEvent.sender_id e.2) ≠ receiverId p
                 ∨ Some (TypingEvent.receiver_id e.2) ≠ userId p) evs →
  Indicator.shown now (Indicator.run (Part014.handleTyping p) evs) = false.
Proof.
  intros Hevs.
  assert (Indicator.run (Part014.handleTyping p) evs = Indicator.initial)
    as ->; [|done].
  unfold Indicator.run.
  assert (Indicator.isTyping Indicator.initial = false
          ∧ Timers.pending (Indicator.timers Indicator.initial) = [])
    as Hidle by done.
  revert Hidle. generalize Indicator.initial at 1 2 3 4.
  induction Hevs as [|[t e] evs He _ IH]; intros st [Hoff Hnone]; [done|].
  simpl. unfold Indicator.deliver at 2. simpl.
  rewrite (run_due_idle t st Hoff Hnone).
  assert (Part014.handleTyping p e t st = st) as ->.
  { unfold Part014.handleTyping, JS.strict_eq. simpl in He.
    destruct (isGroup p).
    - destruct He as [Hg|[Hc|Hu]].
      + by rewrite Hg.
      + rewrite (bool_decide_eq_false_2 _ Hc). by rewrite andb_false_r.
      + rewrite (bool_decide_eq_true_2 _ Hu). by rewrite andb_false_r.
    - destruct He as [Hg|[Hs|Hr]].
      + by rewrite Hg.
      + rewrite (bool_decide_eq_false_2 _ Hs). by rewrite andb_false_r.
      + rewrite (bool_decide_eq_false_2 _ Hr). by rewrite andb_false_r. }
  by apply IH.
Qed.

Lemma typing_elsewhere_never_shows_witness :
  Indicator.shown 100
    (Indicator.run (Part014.handleTyping Scenario.alice_in_G)
       [(0%Z, TypingEvent.mk "bob" "" (Some "H") true);
        (50%Z, TypingEvent.mk "alice" "" (Some "G") true)]) = false.
Proof.
  apply (typing_elsewhere_never_shows Scenario.alice_in_G).
  apply Forall_cons. split; [right; left; discriminate|].
  apply Forall_cons. split; [right; right; reflexivity|].
  apply Forall_nil_2.
Defined.

Lemma debounced_first_keystroke_emits_witness :
  (Part014.onChange Scenario.alice_with_bob true 5000 "h" Composer.initial).2
  = [Part014.typing_signal Scenario.alice_with_bob].
Proof.
  apply (debounced_first_keystroke_emits Scenario.alice_with_bob 5000 "h").
  - lia.
  - simpl. lia.
Defined.

End VariantsAndPosts.
